(** * Acquisition pipeline of the YouTube keywords and videos scraper

    A shallow embedding of [main.py]: the suggestion client
    ([get_suggestions]), the term filter ([is_allowed]), the expansion
    worker over the shared frontier store ([keyword_worker]), the relevance
    scorer ([is_video_relevant]), the search client
    ([scrape_single_keyword]) and the resume logic of [scrape_videos].

    Conventions of the model:
    - a Python [str] is a [string] of ASCII characters; [lower], [strip] and
      [split] are the ASCII restrictions of the Python methods;
    - a [dict] is a [gmap], a [set] a [gset], the task queue a list (FIFO:
      [get] takes the head, [put] appends);
    - the network, the search provider, the clock and the random generator
      are arguments of the functions that use them;
    - [time.sleep] is recorded in a list of durations, in seconds;
    - what has no bearing on the control flow is left out: the user agent
      and the proxy of a request, and the messages printed;
    - a duration is a whole number of seconds, and an exception of the
      search provider is raised by the call of [extract_info], not while
      its entries are read. *)

From Stdlib Require Import ZArith QArith Lqa Ascii String List Lia DecimalString.
From stdpp Require Import gmap strings list fin_maps.

Local Open Scope string_scope.
Local Open Scope nat_scope.

(** ** Text helpers: the [str] methods the program calls *)

Module Text.

(** [str.isspace] on ASCII: tab, line feed, vertical tab, form feed,
    carriage return, the four separators 28..31, and the space. *)
Definition is_space (c : ascii) : bool :=
  let n := nat_of_ascii c in
  ((9 <=? n) && (n <=? 13)) || ((28 <=? n) && (n <=? 32)).

Definition ascii_lower (c : ascii) : ascii :=
  let n := nat_of_ascii c in
  if (65 <=? n) && (n <=? 90) then ascii_of_nat (n + 32) else c.

(** [s.lower()] *)
Fixpoint lower (s : string) : string :=
  match s with
  | EmptyString => EmptyString
  | String c s' => String (ascii_lower c) (lower s')
  end.

Fixpoint lstrip (s : string) : string :=
  match s with
  | EmptyString => EmptyString
  | String c s' => if is_space c then lstrip s' else s
  end.

Fixpoint rstrip (s : string) : string :=
  match s with
  | EmptyString => EmptyString
  | String c s' =>
      match rstrip s' with
      | EmptyString => if is_space c then EmptyString else String c EmptyString
      | r => String c r
      end
  end.

(** [s.strip()] *)
Definition strip (s : string) : string := rstrip (lstrip s).

(** [s.split()]: the maximal runs of non-space characters, in order.
    [cur] is the word being read. *)
Fixpoint split_go (cur : option string) (s : string) : list string :=
  match s with
  | EmptyString => option_list cur
  | String c s' =>
      if is_space c then option_list cur ++ split_go None s'
      else split_go (Some (from_option (fun w => w ++ String c EmptyString)
                                       (String c EmptyString) cur)) s'
  end.

Definition split (s : string) : list string := split_go None s.

(** [sub in s] *)
Fixpoint str_in (sub s : string) : bool :=
  String.prefix sub s ||
  match s with
  | EmptyString => false
  | String _ s' => str_in sub s'
  end.

(** [any(f in k for f in fs)] *)
Definition any_in (fs : list string) (k : string) : bool :=
  existsb (fun f => str_in f k) fs.

End Text.

(** ** Configuration *)

Definition MAX_KEYWORDS : nat := 5000.
Definition MAX_DEPTH : Z := 4.
Definition MAX_RESULTS_PER_KEYWORD : nat := 20.
Definition VIDEO_STRICTNESS : string := "strict".
Definition VIDEOS_OUTPUT_FOLDER : string := "Videos".

Definition FILTER_KEYWORDS : list string :=
  ["free"; "porn"; "sex"; "xxx"; "hentai"; "download"; "mp3"; "torrent"].

Definition endpoint_en : string :=
  "https://clients1.google.com/complete/search?client=youtube&gs_ri=youtube&ds=yt&gl=IN&hl=en-IN&q={}".

Definition endpoint_hi : string :=
  "https://clients1.google.com/complete/search?client=youtube&gs_ri=youtube&ds=yt&gl=IN&hl=hi&q={}".

Definition ENDPOINTS : list string := [endpoint_en; endpoint_hi].

(** ** Relevance scorer *)

Definition normalize_text (text : string) : string :=
  match text with
  | EmptyString => ""
  | _ => Text.strip (Text.lower text)
  end.

(** [len(k_words) - 1 if len(k_words) > 1 else 1] *)
Definition required_matches (n : nat) : nat := if 1 <? n then n - 1 else 1.

(** [is_video_relevant]; the global [VIDEO_STRICTNESS] is the first
    argument.  The quotient of the relaxed policy is taken in the
    rationals. *)
Definition is_video_relevant (strictness keyword video_title : string) : bool :=
  let k_norm := normalize_text keyword in
  let t_norm := normalize_text video_title in
  if Text.str_in k_norm t_norm then true
  else
    let k_words : gset string := list_to_set (Text.split k_norm) in
    let t_words : gset string := list_to_set (Text.split t_norm) in
    if decide (k_words = ∅) then false
    else
      let common_words := k_words ∩ t_words in
      if String.eqb strictness "strict" then
        required_matches (size k_words) <=? size common_words
      else
        Qle_bool (1 # 2)
          (inject_Z (Z.of_nat (size common_words)) / inject_Z (Z.of_nat (size k_words))).

(** ** Term filter *)

Definition is_allowed (keyword : string) : bool :=
  let k := Text.lower keyword in
  negb (Text.any_in FILTER_KEYWORDS k).

(** ** Suggestion client *)

(** The decoded payload of the suggestion provider, [[query, [candidate, ...]]]:
    an array whose elements are strings or arrays of candidates; a candidate
    is a string, an array of strings, or anything else. *)
Inductive item :=
| ItemStr (s : string)
| ItemList (l : list string)
| ItemOther.

Inductive field :=
| FieldStr (s : string)
| FieldList (l : list item).

(** What one [requests.get] gives: it raises (time-out, connection error),
    or it returns a response with a status code; [body] is
    [json.loads] of the text after the JSONP wrapper is removed, [None]
    when the decoder raises. *)
Inductive reply :=
| Raises
| Response (status_code : Z) (body : option (list field)).

(** A run of the client: the set [results], the requests sent (the URL of
    each, in order) and the pauses taken. *)
Record fetch := {
  results : gset string;
  requests : list string;
  sleeps : list Q
}.

(** [endpoint.format(query)] for a template with one [{}]. *)
Fixpoint format (endpoint query : string) : string :=
  match endpoint with
  | EmptyString => EmptyString
  | String "{" (String "}" rest) => query ++ rest
  | String c rest => String c (format rest query)
  end.

Definition chars (s : string) : list item :=
  (fun c => ItemStr (String c EmptyString)) <$> list_ascii_of_string s.

(** Truth value and iteration of [data[1]]. *)
Definition truthy_field (d : field) : bool :=
  match d with
  | FieldStr s => negb (String.eqb s "")
  | FieldList l => negb (length l =? 0)
  end.

Definition iter_field (d : field) : list item :=
  match d with
  | FieldStr s => chars s
  | FieldList l => l
  end.

(** The body of [for item in data[1]]. *)
Definition add_item (results : gset string) (it : item) : gset string :=
  match it with
  | ItemList (s :: _) => {[s]} ∪ results
  | ItemList [] => results
  | ItemStr s => {[s]} ∪ results
  | ItemOther => results
  end.

(** [if len(data) > 1 and data[1]: for item in data[1]: ...] *)
Definition collect (data : list field) (results : gset string) : gset string :=
  if 1 <? length data then
    match data !! 1 with
    | Some d => if truthy_field d then fold_left add_item (iter_field d) results
                else results
    | None => results
    end
  else results.

Definition sent (url : string) (f : fetch) : fetch :=
  {| results := results f; requests := (requests f ++ [url])%list; sleeps := sleeps f |}.

Definition slept (t : Q) (f : fetch) : fetch :=
  {| results := results f; requests := requests f; sleeps := (sleeps f ++ [t])%list |}.

Definition collected_from (data : list field) (f : fetch) : fetch :=
  {| results := collect data (results f); requests := requests f;
     sleeps := sleeps f |}.

(** [for attempt in range(3)] for one endpoint, from [attempt] on with
    [remaining] attempts left.  [net n url] is the reply to the request
    number [n] of this run. *)
Fixpoint try_endpoint (net : nat -> string -> reply) (url : string)
    (remaining attempt : nat) (f : fetch) : fetch :=
  match remaining with
  | 0 => f
  | S remaining' =>
      let f1 := sent url f in
      match net (length (requests f)) url with
      | Raises => try_endpoint net url remaining' (S attempt) (slept 1 f1)
      | Response status_code body =>
          if (status_code =? 200)%Z then
            match body with
            | Some data => collected_from data f1
            | None => try_endpoint net url remaining' (S attempt) (slept 1 f1)
            end
          else if (status_code =? 403)%Z then
            let wait_time := inject_Z ((Z.of_nat attempt + 1) * 2) in
            try_endpoint net url remaining' (S attempt) (slept wait_time f1)
          else f1
      end
  end.

(** The state at the start: [results = set()], nothing sent. *)
Definition empty_fetch : fetch :=
  {| results := ∅; requests := []; sleeps := [] |}.

(** [for endpoint in ENDPOINTS], from the fetch [f] on. *)
Definition query_endpoints (endpoints : list string)
    (net : nat -> string -> reply) (query : string) (f : fetch) : fetch :=
  fold_left (fun f endpoint => try_endpoint net (format endpoint query) 3 0 f)
            endpoints f.

Definition get_suggestions_from (endpoints : list string)
    (net : nat -> string -> reply) (query : string) : fetch :=
  query_endpoints endpoints net query empty_fetch.

Definition get_suggestions (net : nat -> string -> reply) (query : string) : fetch :=
  get_suggestions_from ENDPOINTS net query.

(** ** Frontier store and expansion worker *)

(** The globals of the keywords scraper.  [fetched] is not a variable of
    the program: it records the argument of every call of
    [get_suggestions], in order. *)
Record store := {
  keyword_tree : gmap string (list string);
  collected : gset string;
  task_queue : list string;
  depth_map : gmap string Z;
  keyword_source : gmap string string;
  fetched : list string
}.

Definition empty_store : store :=
  {| keyword_tree := ∅; collected := ∅; task_queue := []; depth_map := ∅;
     keyword_source := ∅; fetched := [] |}.

(** One round of the loop of [scrape_keywords] over [SEED_KEYWORDS]. *)
Definition enqueue_seed (st : store) (kw : string) : store :=
  {| keyword_tree := keyword_tree st;
     collected := collected st;
     task_queue := (task_queue st ++ [kw])%list;
     depth_map := <[kw := 0%Z]> (depth_map st);
     keyword_source := <[kw := kw]> (keyword_source st);
     fetched := fetched st |}.

Definition init_store (seeds : list string) : store :=
  fold_left enqueue_seed seeds empty_store.

(** [task_queue.get] of a non-empty queue. *)
Definition claimed (q : list string) (st : store) : store :=
  {| keyword_tree := keyword_tree st;
     collected := collected st;
     task_queue := q;
     depth_map := depth_map st;
     keyword_source := keyword_source st;
     fetched := fetched st |}.

(** The call [get_suggestions(kw)], recorded. *)
Definition fetching (kw : string) (st : store) : store :=
  {| keyword_tree := keyword_tree st;
     collected := collected st;
     task_queue := task_queue st;
     depth_map := depth_map st;
     keyword_source := keyword_source st;
     fetched := (fetched st ++ [kw])%list |}.

(** First critical section: [if kw not in collected: collected.add(kw)]. *)
Definition mark_collected (kw : string) (st : store) : store :=
  if decide (kw ∈ collected st) then st
  else
    {| keyword_tree := keyword_tree st;
       collected := {[kw]} ∪ collected st;
       task_queue := task_queue st;
       depth_map := depth_map st;
       keyword_source := keyword_source st;
       fetched := fetched st |}.

(** Second critical section, for one suggestion [s] of [kw] claimed at
    [depth]. *)
Definition accept_child (kw : string) (depth : Z) (st : store) (s : string) : store :=
  let tree := <[kw := (default [] (keyword_tree st !! kw) ++ [s])%list]> (keyword_tree st) in
  if decide (s ∈ collected st) then
    {| keyword_tree := tree;
       collected := collected st;
       task_queue := task_queue st;
       depth_map := depth_map st;
       keyword_source := keyword_source st;
       fetched := fetched st |}
  else
    {| keyword_tree := tree;
       collected := collected st;
       task_queue := (task_queue st ++ [s])%list;
       depth_map := <[s := (depth + 1)%Z]> (depth_map st);
       keyword_source :=
         match keyword_source st !! s with
         | Some _ => keyword_source st
         | None => <[s := default kw (keyword_source st !! kw)]> (keyword_source st)
         end;
       fetched := fetched st |}.

(** [for s in suggestions: if not is_allowed(s): continue; ...] *)
Definition accept_children (kw : string) (depth : Z) (suggestions : list string)
    (st : store) : store :=
  fold_left (fun st s => if is_allowed s then accept_child kw depth st s else st)
            suggestions st.

Inductive status := Looping | Returned.

(** One round of [while True] of [keyword_worker].  [net c] is the network
    during the call number [c] of [get_suggestions]; an empty queue stands
    for the time-out of [task_queue.get]. *)
Definition worker_round (net : nat -> nat -> string -> reply) (st : store)
    : status * store :=
  match task_queue st with
  | [] => (Returned, st)
  | kw :: q =>
      let st := claimed q st in
      let depth := default 0%Z (depth_map st !! kw) in
      if MAX_KEYWORDS <=? size (collected st) then (Returned, st)
      else if (MAX_DEPTH <? depth)%Z then (Looping, st)
      else
        let suggestions :=
          elements (results (get_suggestions (net (length (fetched st))) kw)) in
        let st := mark_collected kw (fetching kw st) in
        (Looping, accept_children kw depth suggestions st)
  end.

(** [keyword_worker], one worker running alone, for at most [fuel] rounds.
    The workers of the pool interleave between the critical sections
    [mark_collected] and [accept_child]; one worker doing all the rounds is
    one of the schedules. *)
Fixpoint keyword_worker (fuel : nat) (net : nat -> nat -> string -> reply)
    (st : store) : store :=
  match fuel with
  | 0 => st
  | S fuel' =>
      match worker_round net st with
      | (Returned, st') => st'
      | (Looping, st') => keyword_worker fuel' net st'
      end
  end.

(** How many times [get_suggestions] was called on [kw]. *)
Definition fetch_count (kw : string) (st : store) : nat :=
  length (filter (fun q => q = kw) (fetched st)).

(** ** Search client *)

(** An entry of [info['entries']]: a dictionary, a field is [None] when the
    key is absent or its value is [None]; [view_count] tells the two apart
    because [entry.get('view_count', 0)] does. *)
Record entry := {
  title : option string;
  uploader : option string;
  channel : option string;
  view_count : option (option Z);
  url : option string;
  webpage_url : option string;
  duration_string : option string;
  duration : option Z
}.

(** A row of the output table. *)
Record row := {
  row_keyword : string;
  row_rank : nat;
  row_title : string;
  row_channel : string;
  row_views : option Z;
  row_link : option string;
  row_duration : string
}.

(** The truth value of an optional string: [None] and [""] are false. *)
Definition truthy (o : option string) : option string :=
  match o with
  | Some EmptyString => None
  | o => o
  end.

(** [a or b], for optional strings. *)
Definition or_else (a b : option string) : option string :=
  match truthy a with
  | Some s => Some s
  | None => b
  end.

Definition str_of_Z (n : Z) : string := NilZero.string_of_int (Z.to_int n).

(** [f"{n:02d}"] *)
Definition pad2 (n : Z) : string :=
  let s := str_of_Z n in
  if String.length s <? 2 then "0" ++ s else s.

(** The branch [if duration_sec:] of the duration logic. *)
Definition format_duration (duration_sec : Z) : string :=
  let '(m, s) := Z.div_eucl duration_sec 60 in
  let '(h, m) := Z.div_eucl m 60 in
  if (0 <? h)%Z then str_of_Z h ++ ":" ++ pad2 m ++ ":" ++ pad2 s
  else str_of_Z m ++ ":" ++ pad2 s.

(** The duration logic: the preformatted string when there is one,
    otherwise the formatted seconds when they are there and not zero,
    otherwise ['N/A']. *)
Definition duration_str (e : entry) : string :=
  match truthy (duration_string e) with
  | Some d => d
  | None =>
      match duration e with
      | Some duration_sec =>
          if (duration_sec =? 0)%Z then "N/A" else format_duration duration_sec
      | None => "N/A"
      end
  end.

Definition make_row (keyword : string) (rank_counter : nat) (t : string)
    (e : entry) : row :=
  {| row_keyword := keyword;
     row_rank := rank_counter;
     row_title := t;
     row_channel := default "N/A" (or_else (uploader e) (or_else (channel e) None));
     row_views := default (Some 0%Z) (view_count e);
     row_link := or_else (url e) (webpage_url e);
     row_duration := duration_str e |}.

(** [for entry in info['entries']]: an entry may be [None]. *)
Fixpoint build_rows (keyword : string) (rank_counter : nat)
    (entries : list (option entry)) : list row :=
  match entries with
  | [] => []
  | None :: rest => build_rows keyword rank_counter rest
  | Some e :: rest =>
      match truthy (title e) with
      | None => build_rows keyword rank_counter rest
      | Some t =>
          make_row keyword rank_counter t e
            :: build_rows keyword (S rank_counter) rest
      end
  end.

(** What [ydl.extract_info] gives: it raises an exception whose text is
    [msg], or it returns [info], with its entries when it has the key. *)
Inductive extracted :=
| Raised (msg : string)
| Info (entries : option (list (option entry))).

(** [random.uniform(a, b)] from a draw [u] of [random.random()]. *)
Definition uniform (a b u : Q) : Q := a + (b - a) * u.

(** A run of the search client for one keyword: the pauses, the number of
    calls of the provider, and [written]: [None] when the function
    returned from the handler, otherwise the rows it reached the writing
    step with. *)
Record harvest := {
  pauses : list Q;
  calls : nat;
  written : option (list row)
}.

Definition max_retries : nat := 3.

Definition paused (t : Q) (h : harvest) : harvest :=
  {| pauses := t :: pauses h; calls := calls h; written := written h |}.

Definition called (h : harvest) : harvest :=
  {| pauses := pauses h; calls := S (calls h); written := written h |}.

(** The steps after the loop: the write and the closing pause. *)
Definition finish (u : Q) (results_to_save : list row) : harvest :=
  {| pauses := [uniform 1 3 u]; calls := 0; written := Some results_to_save |}.

Definition abandon : harvest :=
  {| pauses := []; calls := 0; written := None |}.

(** [for attempt in range(max_retries)], from [attempt] on with [remaining]
    attempts left.  [ydl n] is the outcome of the call number [n] of the
    provider, [rand n] the draw number [n] of the random generator. *)
Fixpoint retry (keyword : string) (ydl : nat -> extracted) (rand : nat -> Q)
    (remaining attempt : nat) : harvest :=
  match remaining with
  | 0 => finish (rand attempt) []
  | S remaining' =>
      called
        match ydl attempt with
        | Info entries =>
            finish (rand attempt) (build_rows keyword 1 (default [] entries))
        | Raised msg =>
            if Text.str_in "429" msg then paused 60 abandon
            else if Text.str_in "403" msg || Text.str_in "Forbidden" msg then
              if attempt <? max_retries - 1 then
                let wait_time :=
                  (uniform 5 10 (rand attempt) + inject_Z (Z.of_nat attempt * 5))%Q in
                paused wait_time (retry keyword ydl rand remaining' (S attempt))
              else abandon
            else abandon
        end
  end.

(** [scrape_single_keyword]; [yt_dlp] tells whether the module is there. *)
Definition scrape_single_keyword (yt_dlp : bool) (ydl : nat -> extracted)
    (rand : nat -> Q) (keyword : string) : harvest :=
  if yt_dlp then retry keyword ydl rand max_retries 0 else abandon.

(** ** Resume logic of the harvest *)

(** What the CSV reader yields next: a row, or it raises. *)
Inductive csv_item :=
| Row (r : list string)
| Malformed.

(** [for row in reader: if row: processed_keywords.add(row[0])], inside the
    [try]. *)
Fixpoint read_rows (reader : list csv_item) (processed_keywords : gset string)
    : gset string :=
  match reader with
  | [] => processed_keywords
  | Malformed :: _ => processed_keywords
  | Row [] :: rest => read_rows rest processed_keywords
  | Row (k :: _) :: rest => read_rows rest ({[k]} ∪ processed_keywords)
  end.

(** The [try] block: [next(reader)] skips the header, and raises on an
    empty file. *)
Definition read_processed (reader : list csv_item) : gset string :=
  match reader with
  | [] => ∅
  | Malformed :: _ => ∅
  | Row _ :: rest => read_rows rest ∅
  end.

Definition HEADER : list string :=
  ["Keyword"; "Rank"; "Video Title"; "Channel"; "Views"; "Video Link"; "Duration"].

(** [os.path.join(a, b)] on a POSIX system, for [a] not ending in a slash. *)
Definition path_join (a b : string) : string :=
  if String.prefix "/" b then b else a ++ "/" ++ b.

Definition output_path (descriptive_name timestamp : string) : string :=
  path_join VIDEOS_OUTPUT_FOLDER (descriptive_name ++ "_" ++ timestamp ++ ".csv").

(** [[line.strip() for line in f if line.strip()]] *)
Definition load_keywords (lines : list string) : list string :=
  filter (fun k => k <> "") (Text.strip <$> lines).

(** What [scrape_videos] has set up when it starts the pool. *)
Record plan := {
  output_file : string;
  files : gmap string (list csv_item);
  processed_keywords : gset string;
  keywords_to_do : list string
}.

(** [scrape_videos] up to the pool.  [fs] holds the files of the output
    folder, [keywords_file] the lines of the keywords file ([None] when it
    does not exist), [timestamp] is [datetime.now()] formatted, and
    [analyze] stands for [analyze_keywords_for_name].  The result is [None]
    when the function returns early. *)
Definition scrape_videos (yt_dlp : bool) (analyze : list string -> string)
    (fs : gmap string (list csv_item)) (keywords_file : option (list string))
    (descriptive_name : option string) (timestamp : string) : option plan :=
  if negb yt_dlp then None
  else
    match keywords_file with
    | None => None
    | Some lines =>
        let keywords := load_keywords lines in
        let descriptive_name :=
          match truthy descriptive_name with
          | Some n => n
          | None => analyze keywords
          end in
        let output_file := output_path descriptive_name timestamp in
        let '(processed_keywords, fs') :=
          match fs !! output_file with
          | Some reader => (read_processed reader, fs)
          | None => (∅, <[output_file := [Row HEADER]]> fs)
          end in
        Some {| output_file := output_file;
                files := fs';
                processed_keywords := processed_keywords;
                keywords_to_do :=
                  filter (fun k => k ∉ processed_keywords) keywords |}
    end.

(** ** The duration format as the specification words it *)

(** Two decimal digits. *)
Definition two_digits (n : Z) : string :=
  String (ascii_of_nat (48 + Z.to_nat (n / 10)))
    (String (ascii_of_nat (48 + Z.to_nat (n mod 10))) EmptyString).

(** [H:MM:SS] when the hours are positive, [M:SS] otherwise. *)
Definition spec_duration (sec : Z) : string :=
  let h := (sec / 3600)%Z in
  let m := ((sec / 60) mod 60)%Z in
  let s := (sec mod 60)%Z in
  if (0 <? h)%Z then str_of_Z h ++ ":" ++ two_digits m ++ ":" ++ two_digits s
  else str_of_Z m ++ ":" ++ two_digits s.

(** ** The retry policy as the specification words it *)

(** The kinds of error the policy tells apart: throttling (429), access
    denial (403 or Forbidden), anything else.  Throttling is looked for
    first. *)
Inductive error_kind := Throttling | Denial | OtherError.

Definition error_kind_of (msg : string) : error_kind :=
  if Text.str_in "429" msg then Throttling
  else if Text.str_in "403" msg then Denial
  else if Text.str_in "Forbidden" msg then Denial
  else OtherError.

(** The pause before the retry that follows the attempt number [attempt]:
    a draw between 5 and 10 seconds, plus 5 seconds for each earlier
    attempt. *)
Definition backoff (rand : nat -> Q) (attempt : nat) : Q :=
  (uniform 5 10 (rand attempt) + inject_Z (Z.of_nat attempt * 5))%Q.

(** The title an element of the provider's list brings, if any. *)
Definition usable_title (oe : option entry) : option string :=
  match oe with
  | Some e => truthy (title e)
  | None => None
  end.

(** ** Vocabulary for the suggestion client *)

(** The network as seen after [n] requests. *)
Definition later (n : nat) (net : nat -> string -> reply) : nat -> string -> reply :=
  fun i => net (n + i).

(** The fetch [g] carried out after the fetch [f]. *)
Definition after (f g : fetch) : fetch :=
  {| results := results g ∪ results f;
     requests := (requests f ++ requests g)%list;
     sleeps := (sleeps f ++ sleeps g)%list |}.


(** ** Example data *)

(** An entry with a title and nothing else but its length in seconds. *)
Definition timed_entry (t : string) (d : option Z) : entry :=
  {| title := Some t; uploader := None; channel := None; view_count := None;
     url := None; webpage_url := None; duration_string := None; duration := d |}.


Definition resumed_output : list csv_item :=
  [Row HEADER; Row ["alpha"; "1"; "Alpha song"]; Row ["beta"; "1"; "Beta song"]].

(** A provider that denies access once and then throttles. *)
Definition denied_then_throttled (n : nat) : extracted :=
  match n with
  | 0 => Raised "ERROR: HTTP Error 403: Forbidden"
  | _ => Raised "ERROR: HTTP Error 429: Too Many Requests"
  end.

Definition half (n : nat) : Q := 1 # 2.

(** A well-formed answer of the suggestion provider. *)
Definition answer (query : string) (candidates : list string) : reply :=
  Response 200 (Some [FieldStr query; FieldList (ItemStr <$> candidates)]).

(** A provider that answers the English endpoint from a table of
    suggestions and has nothing (status 404) for any other request. *)
Definition suggesting (table : list (string * list string))
    (n : nat) (url : string) : reply :=
  match find (fun entry => String.eqb url (format endpoint_en (fst entry))) table with
  | Some (query, candidates) => answer query candidates
  | None => Response 404 None
  end.

(** A provider whose two endpoints both answer for the query [cat]. *)
Definition two_languages (n : nat) (url : string) : reply :=
  if String.eqb url (format endpoint_en "cat") then answer "cat" ["cat video"]
  else if String.eqb url (format endpoint_hi "cat") then answer "cat" ["cat cartoon"]
  else Response 404 None.

(** Two seeds, the first of which suggests the second. *)
Definition seed_suggested : list (string * list string) :=
  [("python", ["python tutorial"])].

(** Two seeds that suggest the same term. *)
Definition shared_child : list (string * list string) :=
  [("cat", ["cat video"]); ("kitten", ["cat video"]);
   ("cat video", ["cat video funny"])].


(** ** Totals *)

(** The sum of a list of pauses, in seconds. *)
Definition total (pauses : list Q) : Q := fold_right Qplus 0%Q pauses.

(** ** The invariant of the frontier store *)

(** What holds of the store of a worker started on the seeds [seeds],
    between two rounds. *)
Record frontier_inv (seeds : list string) (st : store) : Prop := {
  inv_queue :
    Forall (fun t => is_Some (depth_map st !! t)
                     /\ is_Some (keyword_source st !! t)
                     /\ (t ∈ seeds \/ is_allowed t = true))
           (task_queue st);
  inv_collected :
    forall t, t ∈ collected st ->
      (exists d, depth_map st !! t = Some d /\ (0 <= d <= MAX_DEPTH)%Z)
      /\ is_Some (keyword_source st !! t)
      /\ (t ∈ seeds \/ is_allowed t = true);
  inv_depth :
    forall t d, depth_map st !! t = Some d -> (0 <= d <= MAX_DEPTH + 1)%Z;
  inv_origin :
    forall t o, keyword_source st !! t = Some o -> o ∈ seeds;
  inv_edges :
    forall p c, c ∈ default [] (keyword_tree st !! p) ->
      p ∈ collected st /\ is_allowed c = true;
  inv_fetched : list_to_set (fetched st) = collected st;
  inv_cap : size (collected st) <= MAX_KEYWORDS
}.

(** ** Saving the keywords *)

(** The tables [save_keywords] writes: the rows of [keywords.csv] (keyword,
    depth, origin seed) and those of [keywords_tree.csv] (parent, child).
    The order of the rows is that of the iteration over the set and over
    the dictionary. *)
Record keyword_tables := {
  keywords_csv : list (string * option Z * option string);
  keywords_tree_csv : list (string * string)
}.

(** [save_keywords]: [None] when nothing was collected. *)
Definition save_keywords (st : store) : option keyword_tables :=
  if decide (collected st = ∅) then None
  else
    Some {| keywords_csv :=
              (fun k => (k, depth_map st !! k, keyword_source st !! k))
                <$> elements (collected st);
            keywords_tree_csv :=
              flat_map (fun pc => (fun child => (pc.1, child)) <$> pc.2)
                       (map_to_list (keyword_tree st)) |}.

(** [scrape_keywords]: the seeds are enqueued, the worker runs, the tables
    are saved. *)
Definition scrape_keywords (seeds : list string) (fuel : nat)
    (net : nat -> nat -> string -> reply) : option keyword_tables :=
  save_keywords (keyword_worker fuel net (init_store seeds)).

(** ** Growth of the store *)

(** [st'] is a later store than [st]: the collected set and the lists of
    children have grown, the recorded origins are the same, and so are the
    depths of the collected terms. *)
Definition later_store (st st' : store) : Prop :=
  collected st ⊆ collected st'
  /\ (forall p, default [] (keyword_tree st !! p)
                `prefix_of` default [] (keyword_tree st' !! p))
  /\ (forall t o, keyword_source st !! t = Some o -> keyword_source st' !! t = Some o)
  /\ (forall t, t ∈ collected st -> depth_map st' !! t = depth_map st !! t)
  /\ fetched st `prefix_of` fetched st'.

(** ** Writing the harvest *)

(** The cells of a row as the CSV writer writes them: a number in decimal,
    [None] as an empty cell. *)
Definition csv_cells (r : row) : list string :=
  [row_keyword r; str_of_Z (Z.of_nat (row_rank r)); row_title r; row_channel r;
   from_option str_of_Z "" (row_views r); default "" (row_link r);
   row_duration r].

(** The end of [scrape_single_keyword]: [if results_to_save:] the rows are
    appended to the output file, which [open(..., 'a')] creates when it is
    not there.  A file is kept as what the CSV reader yields from it: a row
    written is a row read, with the same cells. *)
Definition write_rows (output_file : string) (h : harvest)
    (fs : gmap string (list csv_item)) : gmap string (list csv_item) :=
  match written h with
  | Some (r :: rows) =>
      <[output_file := (default [] (fs !! output_file)
                        ++ (Row ∘ csv_cells <$> r :: rows))%list]> fs
  | _ => fs
  end.

(** The pool of [scrape_videos], the keywords harvested one after the
    other: [ydl i] and [rand i] are the provider and the random generator
    as the keyword number [i] finds them. *)
Fixpoint harvest_all (ydl : nat -> nat -> extracted) (rand : nat -> nat -> Q)
    (output_file : string) (i : nat) (keywords_to_do : list string)
    (fs : gmap string (list csv_item)) : gmap string (list csv_item) :=
  match keywords_to_do with
  | [] => fs
  | k :: rest =>
      harvest_all ydl rand output_file (S i) rest
        (write_rows output_file (scrape_single_keyword true (ydl i) (rand i) k) fs)
  end.

(** The rows these harvests reach the writing step with, in order. *)
Fixpoint harvested (ydl : nat -> nat -> extracted) (rand : nat -> nat -> Q)
    (i : nat) (keywords_to_do : list string) : list row :=
  match keywords_to_do with
  | [] => []
  | k :: rest =>
      (default [] (written (scrape_single_keyword true (ydl i) (rand i) k))
       ++ harvested ydl rand (S i) rest)%list
  end.

(** ** Naming a run after its keywords *)

(** A character of the class [[a-z0-9]]. *)
Definition is_alnum_lower (c : ascii) : bool :=
  let n := nat_of_ascii c in
  ((97 <=? n) && (n <=? 122)) || ((48 <=? n) && (n <=? 57)).

(** [re.sub(r'[^a-z0-9]', '', word)] *)
Fixpoint clean (word : string) : string :=
  match word with
  | EmptyString => EmptyString
  | String c rest => if is_alnum_lower c then String c (clean rest) else clean rest
  end.

(** [s.replace(' ', '_')] *)
Fixpoint replace_spaces (s : string) : string :=
  match s with
  | EmptyString => EmptyString
  | String c rest =>
      String (if Ascii.eqb c " " then "_"%char else c) (replace_spaces rest)
  end.

Definition stopwords : list string :=
  ["the"; "a"; "an"; "and"; "or"; "but"; "in"; "on"; "at"; "to"; "for";
   "of"; "with"; "by"; "from"; "up"; "about"; "into"; "through"; "how";
   "is"; "are"; "was"; "were"; "be"; "been"; "being"; "your"; "you"; "my"].

(** [word_counts[word] += 1] on a [Counter], kept as the list of its items
    in the order of their insertion. *)
Fixpoint count_word (word : string) (counts : list (string * nat))
    : list (string * nat) :=
  match counts with
  | [] => [(word, 1)]
  | (w, n) :: rest =>
      if String.eqb w word then (w, S n) :: rest
      else (w, n) :: count_word word rest
  end.

(** The body of [for kw in keywords_as_list[:50]]. *)
Definition count_keyword (counts : list (string * nat)) (kw : string)
    : list (string * nat) :=
  fold_left
    (fun counts word =>
       let word := clean word in
       if (2 <? String.length word) && negb (existsb (String.eqb word) stopwords)
       then count_word word counts
       else counts)
    (Text.split (Text.lower kw)) counts.

(** One step of a sort by count, largest first, that keeps the order of
    the items with the same count. *)
Fixpoint insert_by_count (x : string * nat) (l : list (string * nat))
    : list (string * nat) :=
  match l with
  | [] => [x]
  | y :: rest =>
      if y.2 <=? x.2 then x :: y :: rest else y :: insert_by_count x rest
  end.

(** [Counter.most_common(n)] *)
Definition most_common (n : nat) (counts : list (string * nat))
    : list (string * nat) :=
  take n (foldr insert_by_count [] counts).

(** [sep.join(words)] *)
Fixpoint join (sep : string) (words : list string) : string :=
  match words with
  | [] => EmptyString
  | [w] => w
  | w :: rest => w ++ sep ++ join sep rest
  end.

(** [analyze_keywords_for_name(keywords_list, max_words)], for a list. *)
Definition analyze_keywords_for_name (keywords_list : list string)
    (max_words : nat) : string :=
  let word_counts := fold_left count_keyword (take 50 keywords_list) [] in
  let top_words := fst <$> most_common max_words word_counts in
  let top_words :=
    match top_words with
    | [] =>
        let first_kw :=
          match keywords_list with
          | k :: _ => k
          | [] => "keywords"
          end in
        [substring 0 20 (clean (replace_spaces (Text.lower first_kw)))]
    | _ => top_words
    end in
  join "_" top_words.

(** The characters a name is made of. *)
Definition name_char (c : ascii) : bool := is_alnum_lower c || Ascii.eqb c "_".

Fixpoint all_chars (p : ascii -> bool) (s : string) : bool :=
  match s with
  | EmptyString => true
  | String c rest => p c && all_chars p rest
  end.

(** A search provider that answers the first keyword, with one entry
    without a title, and throttles the others. *)
Definition first_answered (i n : nat) : extracted :=
  match i with
  | 0 => Info (Some [Some (timed_entry "Alpha song" (Some 45%Z)); None;
                     Some (timed_entry "" None)])
  | _ => Raised "ERROR: HTTP Error 429: Too Many Requests"
  end.

(** * Properties *)

(** ** Facts about the text helpers *)

Module TextFacts.
Import Text.

(** The empty string is a substring of every string. *)
Lemma str_in_empty (s : string) : str_in "" s = true.
Proof. destruct s; reflexivity. Qed.

Lemma split_go_some (w s : string) : split_go (Some w) s <> [].
Proof.
  revert w. induction s as [|c s IH]; intros w; simpl.
  - discriminate.
  - destruct (is_space c); [discriminate | apply IH].
Qed.

(** A string without words holds only spaces, so stripping it on the left
    leaves nothing. *)
Lemma split_nil_lstrip (s : string) : split s = [] -> lstrip s = "".
Proof.
  unfold split. induction s as [|c s IH]; simpl; [reflexivity|].
  destruct (is_space c).
  - simpl. exact IH.
  - intros H. exfalso. exact (split_go_some _ _ H).
Qed.

Lemma lstrip_head (s : string) :
  lstrip s = "" \/ exists c r, lstrip s = String c r /\ is_space c = false.
Proof.
  induction s as [|c s IH]; simpl; [now left|].
  destruct (is_space c) eqn:E; [exact IH|].
  right. exists c, s. split; [reflexivity | exact E].
Qed.

Lemma rstrip_head (c : ascii) (r : string) :
  is_space c = false -> exists r', rstrip (String c r) = String c r'.
Proof.
  intros E. simpl. destruct (rstrip r).
  - rewrite E. now exists "".
  - now eexists.
Qed.

(** [strip] leaves either nothing or a string that starts with a character
    that is not a space. *)
Lemma strip_head (s : string) :
  strip s = "" \/ exists c r, strip s = String c r /\ is_space c = false.
Proof.
  unfold strip. destruct (lstrip_head s) as [-> | (c & r & -> & E)].
  - now left.
  - right. destruct (rstrip_head c r E) as [r' ->]. now exists c, r'.
Qed.

Lemma split_head (c : ascii) (r : string) :
  is_space c = false -> split (String c r) <> [].
Proof. intros E. unfold split. simpl. rewrite E. apply split_go_some. Qed.

(** A stripped string without words is the empty string. *)
Lemma strip_no_words (s : string) : split (strip s) = [] -> strip s = "".
Proof.
  intros H. destruct (strip_head s) as [E | (c & r & E & Hc)]; [exact E|].
  rewrite E in H. exfalso. exact (split_head c r Hc H).
Qed.

End TextFacts.

(** ** Relevance scorer *)

Section scorer.

Implicit Types strictness keyword video_title : string.

Lemma normalize_text_no_words keyword :
  Text.split (normalize_text keyword) = [] -> normalize_text keyword = "".
Proof.
  unfold normalize_text. destruct keyword as [|c k]; [reflexivity|].
  apply TextFacts.strip_no_words.
Qed.

Lemma list_to_set_empty_inv (l : list string) :
  (list_to_set l : gset string) = ∅ -> l = [].
Proof. destruct l as [|x l]; [reflexivity|]. simpl. set_solver. Qed.

(** A keyword is a substring of the title as soon as it has no words. *)
Lemma no_words_str_in keyword video_title :
  (list_to_set (Text.split (normalize_text keyword)) : gset string) = ∅ ->
  Text.str_in (normalize_text keyword) (normalize_text video_title) = true.
Proof.
  intros H%list_to_set_empty_inv%normalize_text_no_words. rewrite H.
  apply TextFacts.str_in_empty.
Qed.

(** The quotient of the relaxed policy reaches one half exactly when twice
    the number of common words reaches the number of words. *)
Lemma half_ratio (c n : nat) :
  n <> 0 ->
  Qle_bool (1 # 2) (inject_Z (Z.of_nat c) / inject_Z (Z.of_nat n)) = true
  <-> n <= 2 * c.
Proof.
  intros Hn. rewrite Qle_bool_iff. destruct n as [|n]; [done|].
  unfold Qle, Qdiv, Qmult, Qinv, inject_Z. simpl Qnum. simpl Qden.
  rewrite Pos.mul_1_l. rewrite Zpos_P_of_succ_nat. lia.
Qed.

(** C4: a keyword that normalizes to zero words is judged relevant to every
    title, under every policy: the substring test comes first and the empty
    string is a substring of every title, so the test [if not k_words]
    is never reached with an empty set. *)
Theorem is_video_relevant_no_words strictness keyword video_title :
  Text.split (normalize_text keyword) = [] ->
  is_video_relevant strictness keyword video_title = true.
Proof.
  intros H%normalize_text_no_words. unfold is_video_relevant.
  rewrite H, TextFacts.str_in_empty. reflexivity.
Qed.

Lemma is_video_relevant_no_words_witness :
  Text.split (normalize_text "   ") = []
  /\ is_video_relevant "strict" "   " "Best Cat Video Ever" = true
  /\ is_video_relevant "relaxed" "   " "Best Cat Video Ever" = true.
Proof.
  split; [reflexivity|].
  split; apply is_video_relevant_no_words; reflexivity.
Defined.

(** C5: a keyword that is a substring of the title (both normalized) is
    relevant; otherwise the strict policy asks for at least [n - 1] common
    words when the keyword has [n > 1] distinct words and for at least one
    otherwise, and the relaxed policy for at least half of the distinct
    words of the keyword.  The three examples of the specification follow. *)
Theorem is_video_relevant_rule :
  (forall strictness keyword video_title,
      let k_norm := normalize_text keyword in
      let t_norm := normalize_text video_title in
      let k_words : gset string := list_to_set (Text.split k_norm) in
      let t_words : gset string := list_to_set (Text.split t_norm) in
      let common := size (k_words ∩ t_words) in
      let relevant := is_video_relevant strictness keyword video_title = true in
      (Text.str_in k_norm t_norm = true -> relevant)
      /\ (Text.str_in k_norm t_norm = false -> strictness = "strict" ->
          (relevant <->
           (1 < size k_words -> size k_words - 1 <= common)
           /\ (size k_words <= 1 -> 1 <= common)))
      /\ (Text.str_in k_norm t_norm = false -> strictness <> "strict" ->
          (relevant <-> size k_words <= 2 * common)))
  /\ is_video_relevant "strict" "cat video" "Best Cat Video Ever" = true
  /\ is_video_relevant "strict" "cat video" "totally unrelated clip" = false
  /\ (forall keyword video_title,
        let k_words : gset string :=
          list_to_set (Text.split (normalize_text keyword)) in
        let t_words : gset string :=
          list_to_set (Text.split (normalize_text video_title)) in
        size k_words = 2 -> size (k_words ∩ t_words) = 1 ->
        is_video_relevant "relaxed" keyword video_title = true).
Proof.
  assert (Hrelaxed : forall strictness keyword video_title,
    Text.str_in (normalize_text keyword) (normalize_text video_title) = false ->
    strictness <> "strict" ->
    let k_words : gset string := list_to_set (Text.split (normalize_text keyword)) in
    let t_words : gset string := list_to_set (Text.split (normalize_text video_title)) in
    is_video_relevant strictness keyword video_title = true
    <-> size k_words <= 2 * size (k_words ∩ t_words)).
  { intros strictness keyword video_title Hin Hs k_words t_words.
    unfold is_video_relevant. rewrite Hin. fold k_words t_words.
    destruct (decide (k_words = ∅)) as [He|He].
    - apply no_words_str_in with (video_title := video_title) in He. congruence.
    - apply String.eqb_neq in Hs. rewrite Hs. apply half_ratio.
      intros H0. apply He. apply leibniz_equiv. by apply size_empty_inv. }
  split; [|split; [reflexivity|split; [reflexivity|]]].
  - intros strictness keyword video_title k_norm t_norm k_words t_words common relevant.
    split; [|split].
    + intros Hin. unfold relevant, is_video_relevant. fold k_norm t_norm.
      rewrite Hin. reflexivity.
    + intros Hin ->. unfold relevant, is_video_relevant. fold k_norm t_norm.
      rewrite Hin. fold k_words t_words.
      destruct (decide (k_words = ∅)) as [He|He].
      * apply no_words_str_in with (video_title := video_title) in He.
        unfold k_norm, t_norm in Hin. congruence.
      * simpl. unfold required_matches. fold common.
        destruct (1 <? size k_words) eqn:E.
        -- apply Nat.ltb_lt in E. rewrite Nat.leb_le. lia.
        -- apply Nat.ltb_ge in E. rewrite Nat.leb_le. lia.
    + intros Hin Hs. apply Hrelaxed; assumption.
  - intros keyword video_title k_words t_words Hk Hc.
    destruct (Text.str_in (normalize_text keyword) (normalize_text video_title)) eqn:Hin.
    + unfold is_video_relevant. rewrite Hin. reflexivity.
    + apply (Hrelaxed "relaxed" keyword video_title Hin); [discriminate|].
      fold k_words t_words. lia.
Qed.

Lemma is_video_relevant_rule_witness :
  is_video_relevant "relaxed" "cat video" "funny cat clip" = true
  /\ is_video_relevant "strict" "cat video" "funny cat clip" = true
  /\ is_video_relevant "strict" "cat video dog" "funny cat clip" = false.
Proof.
  destruct is_video_relevant_rule as (Hrule & _ & _ & Htwo).
  split; [|split].
  - apply Htwo; vm_compute; reflexivity.
  - destruct (Hrule "strict" "cat video" "funny cat clip") as (_ & Hs & _).
    apply Hs; [reflexivity | reflexivity |].
    vm_compute. split; intros; lia.
  - destruct (Hrule "strict" "cat video dog" "funny cat clip") as (_ & Hs & _).
    apply not_true_is_false. intros H.
    apply Hs in H; [|reflexivity|reflexivity].
    vm_compute in H. destruct H as [H _]. lia.
Defined.

End scorer.

(** ** Duration normalization *)

Section durations.

Lemma pad2_two_digits_nat (k : nat) :
  k < 60 -> pad2 (Z.of_nat k) = two_digits (Z.of_nat k).
Proof. do 60 (destruct k as [|k]; [reflexivity|]). lia. Qed.

Lemma pad2_two_digits (n : Z) : (0 <= n < 60)%Z -> pad2 n = two_digits n.
Proof.
  intros H. rewrite <- (Z2Nat.id n) by lia. apply pad2_two_digits_nat. lia.
Qed.

(** The nested [divmod] of the code gives the hours, minutes and seconds. *)
Lemma format_duration_spec (sec : Z) : format_duration sec = spec_duration sec.
Proof.
  unfold format_duration, spec_duration.
  pose proof (Z.div_eucl_eq sec 60 ltac:(lia)) as H1.
  pose proof (Z.mod_pos_bound sec 60 ltac:(lia)) as B1.
  unfold Z.modulo, Z.div in *.
  destruct (Z.div_eucl sec 60) as [m s] eqn:E1.
  pose proof (Z.div_eucl_eq m 60 ltac:(lia)) as H2.
  pose proof (Z.mod_pos_bound m 60 ltac:(lia)) as B2.
  unfold Z.modulo, Z.div in *.
  destruct (Z.div_eucl m 60) as [h m'] eqn:E2.
  assert (Hh : fst (Z.div_eucl sec 3600) = h).
  { change (fst (Z.div_eucl sec 3600)) with (sec / 3600)%Z.
    symmetry. apply (Z.div_unique_pos sec 3600 h (60 * m' + s)); lia. }
  destruct (Z.div_eucl sec 3600) as [h' r']. simpl in Hh. subst h'.
  rewrite !pad2_two_digits by lia. reflexivity.
Qed.

(** C8, as the code has it: without a preformatted string, a length in
    seconds other than zero is written [H:MM:SS] when the hours are positive
    and [M:SS] otherwise; a missing length, and a length of zero, give
    ['N/A'].  45 seconds give [0:45] and 3725 seconds [1:02:05]. *)
Theorem duration_str_format :
  (forall e : entry,
      truthy (duration_string e) = None ->
      match duration e with
      | Some sec =>
          if (sec =? 0)%Z then duration_str e = "N/A"
          else duration_str e = spec_duration sec
      | None => duration_str e = "N/A"
      end)
  /\ duration_str (timed_entry "a" (Some 45%Z)) = "0:45"
  /\ duration_str (timed_entry "a" (Some 3725%Z)) = "1:02:05"
  /\ spec_duration 45 = "0:45" /\ spec_duration 3725 = "1:02:05".
Proof.
  split; [|repeat split; reflexivity].
  intros e He. unfold duration_str. rewrite He.
  destruct (duration e) as [sec|]; [|reflexivity].
  destruct (sec =? 0)%Z; [reflexivity|]. apply format_duration_spec.
Qed.

Lemma duration_str_format_witness :
  duration_str (timed_entry "long" (Some 36000%Z)) = "10:00:00".
Proof.
  destruct duration_str_format as [H _].
  specialize (H (timed_entry "long" (Some 36000%Z)) eq_refl).
  simpl in H. rewrite H. reflexivity.
Defined.

(** C8 as stated fails for a length of zero seconds: the code gives
    ['N/A'] where the stated format gives [0:00]. *)
Lemma duration_zero_not_formatted :
  let e := timed_entry "intro" (Some 0%Z) in
  truthy (duration_string e) = None
  /\ duration e = Some 0%Z
  /\ spec_duration 0 = "0:00"
  /\ duration_str e = "N/A"
  /\ duration_str e <> spec_duration 0.
Proof. repeat split; try reflexivity. discriminate. Qed.

End durations.

(** ** Resume tracker *)

(** The rows read before the end of the file, or before the reader raises,
    are all recorded. *)
Lemma read_rows_until (rows : list (list string)) (tail : list csv_item)
    (acc : gset string) :
  tail = [] \/ (exists rest, tail = Malformed :: rest) ->
  read_rows ((Row <$> rows) ++ tail) acc = list_to_set (omap head rows) ∪ acc.
Proof.
  intros Htail. revert acc.
  induction rows as [|r rows IH]; intros acc; simpl.
  - destruct Htail as [-> | [rest ->]]; simpl; by rewrite union_empty_l_L.
  - destruct r as [|k r]; simpl.
    + apply IH.
    + rewrite IH, (assoc_L (∪)), (comm_L (∪) _ {[k]}). reflexivity.
Qed.

Section resume.

Variable analyze : list string -> string.

Implicit Types (fs : gmap string (list csv_item)) (reader : list csv_item).
(** When the output file exists, the keywords in the first column of its
    rows are left out of the harvest. *)
Lemma scrape_videos_existing fs reader lines name timestamp :
  name <> "" ->
  fs !! output_path name timestamp = Some reader ->
  scrape_videos true analyze fs (Some lines) (Some name) timestamp =
    Some {| output_file := output_path name timestamp;
            files := fs;
            processed_keywords := read_processed reader;
            keywords_to_do :=
              filter (fun k => k ∉ read_processed reader) (load_keywords lines) |}.
Proof.
  intros Hn Hfs. unfold scrape_videos. simpl.
  destruct name as [|c name]; [done|]. simpl. rewrite Hfs. reflexivity.
Qed.


End resume.



(** ** The output file of a harvest *)

Section output_file.

Lemma append_cons (x : ascii) (a b : string) :
  String x a ++ b = String x (a ++ b).
Proof. reflexivity. Qed.

Lemma append_assoc (a b c : string) : (a ++ b) ++ c = a ++ b ++ c.
Proof.
  induction a as [|x a IH]; [reflexivity|].
  rewrite !append_cons. by rewrite IH.
Qed.

Lemma length_append (a b : string) :
  String.length (a ++ b) = String.length a + String.length b.
Proof.
  induction a as [|x a IH]; [reflexivity|].
  rewrite append_cons. simpl. by rewrite IH.
Qed.

(** Two equal concatenations whose right parts have the same length have
    equal parts. *)
Lemma append_inv_len (a b c d : string) :
  a ++ b = c ++ d -> String.length b = String.length d -> a = c /\ b = d.
Proof.
  revert c. induction a as [|x a IH]; intros [|y c] H Hlen.
  - done.
  - change ("" ++ b) with b in H. subst b.
    rewrite append_cons in Hlen. simpl in Hlen.
    rewrite length_append in Hlen. lia.
  - change ("" ++ d) with d in H. subst d.
    rewrite append_cons in Hlen. simpl in Hlen.
    rewrite length_append in Hlen. lia.
  - rewrite !append_cons in H. injection H as -> H.
    destruct (IH c H Hlen) as [-> ->]. done.
Qed.

(** The path ends with the timestamp and the extension. *)
Lemma output_path_split (name timestamp : string) :
  exists p, output_path name timestamp = p ++ timestamp ++ ".csv".
Proof.
  unfold output_path, path_join.
  destruct (String.prefix "/" (name ++ "_" ++ timestamp ++ ".csv")).
  - exists (name ++ "_"). by rewrite append_assoc.
  - exists (VIDEOS_OUTPUT_FOLDER ++ "/" ++ name ++ "_").
    by rewrite !append_assoc.
Qed.

(** Timestamps of the same length that differ give different paths,
    whatever the names. *)
Lemma output_path_timestamp (name1 name2 ts1 ts2 : string) :
  String.length ts1 = String.length ts2 ->
  output_path name1 ts1 = output_path name2 ts2 -> ts1 = ts2.
Proof.
  intros Hlen H.
  destruct (output_path_split name1 ts1) as [p1 H1].
  destruct (output_path_split name2 ts2) as [p2 H2].
  rewrite H1, H2 in H.
  apply append_inv_len in H as [_ H].
  - apply append_inv_len in H as [H _]; done.
  - rewrite !length_append. lia.
Qed.

Variable analyze : list string -> string.

(** The name in use: the one given, or the one computed from the keywords. *)
Let name_of (descriptive_name : option string) (lines : list string) : string :=
  match truthy descriptive_name with
  | Some n => n
  | None => analyze (load_keywords lines)
  end.

(** C10: when no file has the name built from the timestamp of this
    harvest, a file holding the header row alone is created, the set of
    processed keywords is empty and every keyword of the list is scheduled;
    a file left by an earlier harvest, whose name embeds another timestamp,
    is not read and changes nothing of this. *)
Theorem scrape_videos_fresh_output
    (fs : gmap string (list csv_item)) (lines : list string)
    (descriptive_name : option string) (timestamp : string) :
  let output := output_path (name_of descriptive_name lines) timestamp in
  fs !! output = None ->
  scrape_videos true analyze fs (Some lines) descriptive_name timestamp =
    Some {| output_file := output;
            files := <[output := [Row HEADER]]> fs;
            processed_keywords := ∅;
            keywords_to_do := load_keywords lines |}
  /\ forall (earlier_name earlier_timestamp : string) (earlier : list csv_item),
      String.length earlier_timestamp = String.length timestamp ->
      earlier_timestamp <> timestamp ->
      scrape_videos true analyze
        (<[output_path earlier_name earlier_timestamp := earlier]> fs)
        (Some lines) descriptive_name timestamp =
        Some {| output_file := output;
                files := <[output := [Row HEADER]]>
                           (<[output_path earlier_name earlier_timestamp := earlier]> fs);
                processed_keywords := ∅;
                keywords_to_do := load_keywords lines |}.
Proof.
  intros output Hfs.
  assert (Hfresh : forall fs' : gmap string (list csv_item),
    fs' !! output = None ->
    scrape_videos true analyze fs' (Some lines) descriptive_name timestamp =
      Some {| output_file := output;
              files := <[output := [Row HEADER]]> fs';
              processed_keywords := ∅;
              keywords_to_do := load_keywords lines |}).
  { intros fs' H. unfold scrape_videos. simpl.
    fold (name_of descriptive_name lines). fold output. rewrite H.
    f_equal. f_equal. induction (load_keywords lines) as [|k l IH]; [done|].
    rewrite filter_cons_True by set_solver. by rewrite IH. }
  split; [by apply Hfresh|].
  intros earlier_name earlier_timestamp earlier Hlen Hne.
  apply Hfresh. rewrite lookup_insert_ne; [done|].
  intros Heq. apply Hne. by eapply output_path_timestamp.
Qed.

End output_file.

Lemma scrape_videos_fresh_output_witness :
  keywords_to_do <$>
    scrape_videos true (fun _ => "keywords")
      {[ output_path "cats" "20240101_120000" := resumed_output ]}
      (Some ["alpha"; "beta"; "gamma"]) (Some "cats") "20240102_090000"
  = Some ["alpha"; "beta"; "gamma"].
Proof.
  destruct (scrape_videos_fresh_output (fun _ => "keywords") ∅
              ["alpha"; "beta"; "gamma"] (Some "cats") "20240102_090000"
              (lookup_empty _))
    as [_ H].
  rewrite <- insert_empty.
  rewrite (H "cats" "20240101_120000" resumed_output eq_refl); [reflexivity|].
  discriminate.
Defined.

(** ** Search client *)

Section search_client.

Implicit Types (ydl : nat -> extracted) (rand : nat -> Q) (keyword : string).

Lemma denial_tests (msg : string) :
  error_kind_of msg = Denial ->
  Text.str_in "429" msg = false
  /\ Text.str_in "403" msg || Text.str_in "Forbidden" msg = true.
Proof.
  unfold error_kind_of.
  destruct (Text.str_in "429" msg); [discriminate|].
  destruct (Text.str_in "403" msg); [done|].
  destruct (Text.str_in "Forbidden" msg); [done | discriminate].
Qed.

(** The loop never calls the provider more often than it has attempts left. *)
Lemma retry_calls keyword ydl rand (remaining attempt : nat) :
  calls (retry keyword ydl rand remaining attempt) <= remaining.
Proof.
  revert attempt. induction remaining as [|n IH]; intros attempt; simpl; [lia|].
  destruct (ydl attempt) as [msg|entries]; simpl; [|lia].
  destruct (Text.str_in "429" msg); simpl; [lia|].
  destruct (Text.str_in "403" msg || Text.str_in "Forbidden" msg); simpl; [|lia].
  destruct (attempt <? 2); simpl; [|lia].
  specialize (IH (S attempt)). lia.
Qed.

(** The rows carry the titles of the entries that have one, in order. *)
Lemma build_rows_titles keyword (rank_counter : nat) (entries : list (option entry)) :
  row_title <$> build_rows keyword rank_counter entries = omap usable_title entries.
Proof.
  revert rank_counter.
  induction entries as [|[e|] entries IH]; intros rank_counter; simpl; [done| |done].
  destruct (truthy (title e)) as [t|]; simpl; [|done]. by rewrite IH.
Qed.

(** The ranks are consecutive, from the first rank on. *)
Lemma build_rows_ranks keyword (rank_counter : nat) (entries : list (option entry)) :
  row_rank <$> build_rows keyword rank_counter entries
  = seq rank_counter (length (omap usable_title entries)).
Proof.
  revert rank_counter.
  induction entries as [|[e|] entries IH]; intros rank_counter; simpl; [done| |done].
  destruct (truthy (title e)) as [t|]; simpl; [|done]. by rewrite IH.
Qed.

Lemma backoff_bounds rand (attempt : nat) :
  (0 <= rand attempt <= 1)%Q ->
  (5 + inject_Z (Z.of_nat attempt * 5) <= backoff rand attempt
   <= 10 + inject_Z (Z.of_nat attempt * 5))%Q.
Proof. intros [H0 H1]. unfold backoff, uniform. split; lra. Qed.

(** C6: within three attempts, after [k] denials that were retried, each
    after its backoff: throttling pauses 60 seconds and abandons the
    keyword; a denial at the last attempt abandons it; any other error
    abandons it at once; an answer ends the loop with the rows of the entries
    that have a title.  The backoff after the attempt number [i] lies
    between [5 + 5 i] and [10 + 5 i] seconds, so it is not shorter than
    the one before, and the provider is never called more than three
    times. *)
Theorem scrape_single_keyword_policy :
  (forall ydl rand keyword (k : nat),
      k < max_retries ->
      (forall i msg, i < k -> ydl i = Raised msg -> error_kind_of msg = Denial) ->
      (forall i, i < k -> exists msg, ydl i = Raised msg) ->
      let h := scrape_single_keyword true ydl rand keyword in
      let waits := backoff rand <$> seq 0 k in
      match ydl k with
      | Raised msg =>
          match error_kind_of msg with
          | Throttling =>
              h = {| pauses := waits ++ [60%Q]; calls := S k; written := None |}
          | Denial =>
              k = max_retries - 1 ->
              h = {| pauses := waits; calls := max_retries; written := None |}
          | OtherError =>
              h = {| pauses := waits; calls := S k; written := None |}
          end
      | Info entries =>
          h = {| pauses := waits ++ [uniform 1 3 (rand k)];
                 calls := S k;
                 written := Some (build_rows keyword 1 (default [] entries)) |}
      end)
  /\ (forall rand (i : nat),
        (0 <= rand i <= 1)%Q ->
        (5 + inject_Z (Z.of_nat i * 5) <= backoff rand i
         <= 10 + inject_Z (Z.of_nat i * 5))%Q)
  /\ (forall rand (i : nat),
        (0 <= rand i <= 1)%Q -> (0 <= rand (S i) <= 1)%Q ->
        (backoff rand i <= backoff rand (S i))%Q)
  /\ (forall keyword (rank_counter : nat) entries,
        row_title <$> build_rows keyword rank_counter entries
          = omap usable_title entries
        /\ Forall (fun r => row_title r <> "") (build_rows keyword rank_counter entries))
  /\ (forall ydl rand keyword,
        calls (scrape_single_keyword true ydl rand keyword) <= max_retries).
Proof.
  split; [|split; [|split; [|split]]].
  - intros ydl rand keyword k Hk Hkind Hraised h waits.
    assert (Hden : forall i, i < k -> exists msg, ydl i = Raised msg
              /\ Text.str_in "429" msg = false
              /\ Text.str_in "403" msg || Text.str_in "Forbidden" msg = true).
    { intros i Hi. destruct (Hraised i Hi) as [msg Hmsg]. exists msg.
      split; [done|]. apply denial_tests. by eapply Hkind. }
    unfold max_retries in *. unfold h, waits, scrape_single_keyword, max_retries.
    destruct k as [|[|[|k]]]; [| | |lia].
    + simpl. destruct (ydl 0) as [msg|entries]; [|reflexivity].
      unfold error_kind_of. destruct (Text.str_in "429" msg); [reflexivity|].
      destruct (Text.str_in "403" msg); [simpl; lia|].
      destruct (Text.str_in "Forbidden" msg); [simpl; lia | reflexivity].
    + destruct (Hden 0 ltac:(lia)) as (m0 & E0 & T0 & F0).
      simpl. rewrite E0, T0, F0. simpl.
      destruct (ydl 1) as [msg|entries]; [|reflexivity].
      unfold error_kind_of. destruct (Text.str_in "429" msg); [reflexivity|].
      destruct (Text.str_in "403" msg); [simpl; lia|].
      destruct (Text.str_in "Forbidden" msg); [simpl; lia | reflexivity].
    + destruct (Hden 0 ltac:(lia)) as (m0 & E0 & T0 & F0).
      destruct (Hden 1 ltac:(lia)) as (m1 & E1 & T1 & F1).
      simpl. rewrite E0, T0, F0. simpl. rewrite E1, T1, F1. simpl.
      destruct (ydl 2) as [msg|entries]; [|reflexivity].
      unfold error_kind_of. destruct (Text.str_in "429" msg); [reflexivity|].
      destruct (Text.str_in "403" msg); [reflexivity|].
      destruct (Text.str_in "Forbidden" msg); reflexivity.
  - apply backoff_bounds.
  - intros rand i Hi HSi.
    pose proof (backoff_bounds rand i Hi) as [_ Hup].
    pose proof (backoff_bounds rand (S i) HSi) as [Hlow _].
    eapply Qle_trans; [exact Hup|]. eapply Qle_trans; [|exact Hlow].
    rewrite Nat2Z.inj_succ. unfold Z.succ.
    rewrite Z.mul_add_distr_r, inject_Z_plus.
    generalize (inject_Z (Z.of_nat i * 5)). intros q.
    change (inject_Z (1 * 5)) with (5 # 1). lra.
  - intros keyword rank_counter entries. split; [apply build_rows_titles|].
    revert rank_counter.
    induction entries as [|[e|] entries IH]; intros rank_counter; simpl;
      [constructor| |apply IH].
    destruct (truthy (title e)) as [t|] eqn:E; [|apply IH].
    constructor; [|apply IH]. simpl. intros ->.
    unfold truthy in E. destruct (title e) as [[|]|]; discriminate.
  - intros ydl rand keyword. unfold scrape_single_keyword. apply retry_calls.
Qed.

End search_client.

Lemma scrape_single_keyword_policy_witness :
  scrape_single_keyword true denied_then_throttled half "cat video"
  = {| pauses := [backoff half 0; 60%Q]; calls := 2; written := None |}.
Proof.
  destruct scrape_single_keyword_policy as [H _].
  apply (H denied_then_throttled half "cat video" 1).
  - unfold max_retries. lia.
  - intros i msg Hi. assert (i = 0) as -> by lia.
    simpl. intros [= <-]. reflexivity.
  - intros i Hi. assert (i = 0) as -> by lia. simpl. eauto.
Defined.

(** ** Suggestion client *)

Section suggestion_client.

Implicit Types (net : nat -> string -> reply) (f g : fetch) (url query : string).


Lemma add_items_union (items : list item) (r1 r2 : gset string) :
  fold_left add_item items (r1 ∪ r2) = fold_left add_item items r1 ∪ r2.
Proof.
  revert r1. induction items as [|it items IH]; intros r1; simpl; [done|].
  destruct it as [s|[|s l]|]; simpl; rewrite <- ?IH; try done.
  - by rewrite (assoc_L (∪)).
  - by rewrite (assoc_L (∪)).
Qed.

Lemma collect_union (data : list field) (r1 r2 : gset string) :
  collect data (r1 ∪ r2) = collect data r1 ∪ r2.
Proof.
  unfold collect. destruct (1 <? length data); [|done].
  destruct (data !! 1) as [d|]; [|done].
  destruct (truthy_field d); [|done]. apply add_items_union.
Qed.

(** Whatever was fetched before only shifts the numbering of the requests:
    the attempts on an endpoint add to the fetch so far. *)
Lemma try_endpoint_after net url (remaining attempt : nat) f g :
  try_endpoint net url remaining attempt (after f g)
  = after f (try_endpoint (later (length (requests f)) net) url remaining attempt g).
Proof.
  revert attempt g. induction remaining as [|n IH]; intros attempt g; [done|].
  assert (Hsent : sent url (after f g) = after f (sent url g)).
  { unfold sent, after. simpl. by rewrite (assoc_L (++)). }
  assert (Hslept : forall t h, slept t (after f h) = after f (slept t h)).
  { intros t h. unfold slept, after. simpl. by rewrite (assoc_L (++)). }
  simpl. rewrite Hsent. unfold later at 1.
  rewrite length_app.
  destruct (net (length (requests f) + length (requests g)) url) as [|code body].
  - rewrite Hslept. apply IH.
  - destruct (code =? 200)%Z.
    + destruct body as [data|].
      * unfold collected_from, after. simpl. by rewrite collect_union.
      * rewrite Hslept. apply IH.
    + destruct (code =? 403)%Z; [|done]. rewrite Hslept. apply IH.
Qed.

Lemma query_endpoints_after (endpoints : list string) net query f g :
  query_endpoints endpoints net query (after f g)
  = after f (query_endpoints endpoints (later (length (requests f)) net) query g).
Proof.
  unfold query_endpoints. revert g.
  induction endpoints as [|e endpoints IH]; intros g; cbn [fold_left]; [done|].
  rewrite try_endpoint_after. apply IH.
Qed.

(** One round of the attempts on an endpoint. *)
Lemma try_endpoint_step net url (n attempt : nat) g :
  try_endpoint net url (S n) attempt g =
    match net (length (requests g)) url with
    | Raises => try_endpoint net url n (S attempt) (slept 1 (sent url g))
    | Response status_code body =>
        if (status_code =? 200)%Z then
          match body with
          | Some data => collected_from data (sent url g)
          | None => try_endpoint net url n (S attempt) (slept 1 (sent url g))
          end
        else if (status_code =? 403)%Z then
          try_endpoint net url n (S attempt)
            (slept (inject_Z ((Z.of_nat attempt + 1) * 2)) (sent url g))
        else sent url g
    end.
Proof. reflexivity. Qed.




End suggestion_client.



(** ** Frontier store and expansion worker *)

Section frontier.

Implicit Types (st : store) (kw s : string) (depth : Z)
  (net : nat -> nat -> string -> reply).

(** The origin of a term is written once: [accept_child] leaves an origin
    that is recorded as it is. *)
Lemma accept_child_origin_kept kw depth st s (t o : string) :
  keyword_source st !! t = Some o ->
  keyword_source (accept_child kw depth st s) !! t = Some o.
Proof.
  intros H. unfold accept_child.
  destruct (decide (s ∈ collected st)); simpl; [done|].
  destruct (keyword_source st !! s) eqn:E; [done|].
  rewrite lookup_insert_ne; [done|]. intros ->. congruence.
Qed.

(** The depth of a collected term is not written again. *)
Lemma accept_child_depth_frozen kw depth st s (t : string) :
  t ∈ collected st ->
  depth_map (accept_child kw depth st s) !! t = depth_map st !! t.
Proof.
  intros H. unfold accept_child.
  destruct (decide (s ∈ collected st)); simpl; [done|].
  rewrite lookup_insert_ne; [done|]. intros ->. done.
Qed.





End frontier.


(** C1, evaluated: the seed [python tutorial] is enqueued at depth 0; the
    worker that expands the seed [python] finds it among the suggestions
    while it is not collected yet, and writes the depth 1 over the depth 0
    (the origin is left as it was); the term is then collected with the
    depth 1. *)
Theorem depth_overwritten_before_collection :
  let net := fun _ : nat => suggesting seed_suggested in
  let st0 := init_store ["python"; "python tutorial"] in
  let st1 := (worker_round net st0).2 in
  let st := keyword_worker 10 net st0 in
  depth_map st0 !! "python tutorial" = Some 0%Z
  /\ keyword_source st0 !! "python tutorial" = Some "python tutorial"
  /\ ("python tutorial" ∉ collected st1)
  /\ depth_map st1 !! "python tutorial" = Some 1%Z
  /\ keyword_source st1 !! "python tutorial" = Some "python tutorial"
  /\ task_queue st = []
  /\ ("python tutorial" ∈ collected st)
  /\ depth_map st !! "python tutorial" = Some 1%Z.
Proof.
  cbv zeta.
  assert (H1 : collected (worker_round (fun _ : nat => suggesting seed_suggested)
                 (init_store ["python"; "python tutorial"])).2 = {["python"]})
    by (vm_compute; reflexivity).
  assert (H2 : collected (keyword_worker 10 (fun _ : nat => suggesting seed_suggested)
                 (init_store ["python"; "python tutorial"]))
               = {["python"; "python tutorial"]})
    by (vm_compute; reflexivity).
  rewrite H1, H2. clear H1 H2.
  split; [vm_compute; reflexivity|]. split; [vm_compute; reflexivity|].
  split; [set_solver|].
  split; [vm_compute; reflexivity|]. split; [vm_compute; reflexivity|].
  split; [vm_compute; reflexivity|].
  split; [set_solver|]. vm_compute; reflexivity.
Qed.

(** C2, evaluated: the seeds [cat] and [kitten] both suggest [cat video]
    before it is collected, so it is enqueued twice and expanded twice:
    [get_suggestions] is called twice on it and its child is accepted
    twice, and the child is in turn fetched twice. *)
Theorem term_expanded_twice :
  let net := fun _ : nat => suggesting shared_child in
  let st := keyword_worker 10 net (init_store ["cat"; "kitten"]) in
  task_queue st = []
  /\ fetched st = ["cat"; "kitten"; "cat video"; "cat video";
                   "cat video funny"; "cat video funny"]
  /\ fetch_count "cat video" st = 2
  /\ keyword_tree st !! "cat" = Some ["cat video"]
  /\ keyword_tree st !! "kitten" = Some ["cat video"]
  /\ keyword_tree st !! "cat video" = Some ["cat video funny"; "cat video funny"].
Proof.
  cbv zeta.
  split; [vm_compute; reflexivity|]. split; [vm_compute; reflexivity|].
  split; [vm_compute; reflexivity|]. split; [vm_compute; reflexivity|].
  split; vm_compute; reflexivity.
Qed.

(** * Further properties of the text helpers and of the pure functions *)

Module TextMore.
Import Text.

Lemma ascii_lower_idempotent (c : ascii) : ascii_lower (ascii_lower c) = ascii_lower c.
Proof. destruct c as [[] [] [] [] [] [] [] []]; reflexivity. Qed.

Lemma is_space_lower (c : ascii) : is_space (ascii_lower c) = is_space c.
Proof. destruct c as [[] [] [] [] [] [] [] []]; reflexivity. Qed.

Lemma lower_idempotent (s : string) : lower (lower s) = lower s.
Proof.
  induction s as [|c s IH]; simpl; [done|].
  by rewrite ascii_lower_idempotent, IH.
Qed.

Lemma lower_app (a b : string) : lower (a ++ b) = lower a ++ lower b.
Proof.
  induction a as [|c a IH]; [done|].
  rewrite append_cons. simpl. rewrite append_cons. by rewrite IH.
Qed.

Lemma lower_empty (s : string) : lower s = "" -> s = "".
Proof. by destruct s. Qed.

Lemma lower_lstrip (s : string) : lower (lstrip s) = lstrip (lower s).
Proof.
  induction s as [|c s IH]; simpl; [done|].
  rewrite is_space_lower. by destruct (is_space c).
Qed.

Lemma lower_rstrip (s : string) : lower (rstrip s) = rstrip (lower s).
Proof.
  induction s as [|c s IH]; simpl; [done|].
  rewrite <- IH, is_space_lower.
  destruct (rstrip s) as [|x r]; simpl; [by destruct (is_space c) | done].
Qed.

Lemma lower_strip (s : string) : lower (strip s) = strip (lower s).
Proof. unfold strip. by rewrite lower_rstrip, lower_lstrip. Qed.

Lemma rstrip_idempotent (s : string) : rstrip (rstrip s) = rstrip s.
Proof.
  induction s as [|c s IH]; simpl; [done|].
  destruct (rstrip s) as [|x r] eqn:E.
  - destruct (is_space c) eqn:Ec; simpl; [done | by rewrite Ec].
  - simpl in *. by rewrite IH.
Qed.

Lemma strip_idempotent (s : string) : strip (strip s) = strip s.
Proof.
  destruct (TextFacts.strip_head s) as [-> | (c & r & E & Hc)]; [done|].
  rewrite E. unfold strip at 1. simpl. rewrite Hc.
  rewrite <- E. unfold strip. apply rstrip_idempotent.
Qed.

Lemma prefix_app (sub s b : string) :
  String.prefix sub s = true -> String.prefix sub (s ++ b) = true.
Proof.
  revert s. induction sub as [|x sub IH]; intros s H; [by destruct (s ++ b)|].
  destruct s as [|y s]; [done|]. rewrite append_cons. simpl in H. simpl.
  destruct (ascii_dec x y); [by apply IH | done].
Qed.

Lemma prefix_refl (s : string) : String.prefix s s = true.
Proof.
  induction s as [|x s IH]; [done|]. simpl.
  by destruct (ascii_dec x x).
Qed.

Lemma str_in_refl (s : string) : str_in s s = true.
Proof.
  destruct s as [|a s]; [done|].
  change (str_in (String a s) (String a s))
    with (String.prefix (String a s) (String a s) || str_in (String a s) s).
  by rewrite prefix_refl.
Qed.

Lemma str_in_app_r (sub s b : string) :
  str_in sub s = true -> str_in sub (s ++ b) = true.
Proof.
  induction s as [|y s IH]; intros H.
  - simpl in H. rewrite orb_false_r in H.
    destruct sub; [apply TextFacts.str_in_empty | done].
  - rewrite append_cons. simpl in *. apply orb_true_iff in H as [H|H].
    + apply (prefix_app _ (String y s) b) in H. rewrite append_cons in H.
      simpl in H. by rewrite H.
    + rewrite (IH H). apply orb_true_r.
Qed.

Lemma str_in_app_l (sub a s : string) :
  str_in sub s = true -> str_in sub (a ++ s) = true.
Proof.
  intros H. induction a as [|x a IH]; [done|].
  rewrite append_cons. simpl. rewrite IH. apply orb_true_r.
Qed.

End TextMore.

(** ** Term filter *)

(** X1: a keyword that the filter rejects is rejected inside every longer
    keyword, whatever is put before and after it. *)
Theorem is_allowed_extension (a k b : string) :
  is_allowed k = false -> is_allowed (a ++ k ++ b) = false.
Proof.
  unfold is_allowed, Text.any_in. rewrite !negb_false_iff, !existsb_exists.
  intros (f & Hf & Hin). exists f. split; [done|].
  rewrite !TextMore.lower_app.
  by apply TextMore.str_in_app_l, TextMore.str_in_app_r.
Qed.

Lemma is_allowed_extension_witness :
  is_allowed "MP3" = false /\ is_allowed ("best " ++ "MP3" ++ " player") = false.
Proof.
  split; [reflexivity|]. apply is_allowed_extension. reflexivity.
Defined.

(** ** Relevance scorer *)

Lemma normalize_text_idempotent (text : string) :
  normalize_text (normalize_text text) = normalize_text text.
Proof.
  destruct text as [|c text]; [done|]. unfold normalize_text at 2 3.
  unfold normalize_text.
  destruct (Text.strip (Text.lower (String c text))) as [|x r] eqn:E; [done|].
  rewrite <- E.
  by rewrite TextMore.lower_strip, TextMore.lower_idempotent,
    TextMore.strip_idempotent.
Qed.

Lemma normalize_text_lower (text : string) :
  normalize_text (Text.lower text) = normalize_text text.
Proof.
  destruct text as [|c text]; [done|]. unfold normalize_text.
  change (Text.lower (String c text))
    with (String (Text.ascii_lower c) (Text.lower text)) at 1.
  cbv iota. by rewrite TextMore.lower_idempotent.
Qed.

Lemma normalize_text_strip (text : string) :
  normalize_text (Text.strip text) = normalize_text text.
Proof.
  destruct text as [|c text]; [done|]. unfold normalize_text.
  destruct (Text.strip (String c text)) as [|x r] eqn:E.
  - by rewrite <- TextMore.lower_strip, E.
  - by rewrite <- E, TextMore.lower_strip, TextMore.strip_idempotent.
Qed.

(** X2: the judgement depends on the keyword and on the title up to letter
    case and surrounding white space only: lower-casing them, stripping
    them or normalizing them beforehand changes nothing. *)
Theorem is_video_relevant_normalized (strictness keyword video_title : string) :
  is_video_relevant strictness (Text.lower keyword) (Text.lower video_title)
    = is_video_relevant strictness keyword video_title
  /\ is_video_relevant strictness (Text.strip keyword) (Text.strip video_title)
    = is_video_relevant strictness keyword video_title
  /\ is_video_relevant strictness (normalize_text keyword) (normalize_text video_title)
    = is_video_relevant strictness keyword video_title.
Proof.
  unfold is_video_relevant.
  by rewrite !normalize_text_lower, !normalize_text_strip,
    !normalize_text_idempotent.
Qed.

(** X3: what the strict policy accepts, every other policy accepts too. *)
Theorem is_video_relevant_strict_relaxed (strictness keyword video_title : string) :
  is_video_relevant "strict" keyword video_title = true ->
  is_video_relevant strictness keyword video_title = true.
Proof.
  unfold is_video_relevant.
  destruct (Text.str_in (normalize_text keyword) (normalize_text video_title));
    [done|].
  set (k_words := list_to_set (Text.split (normalize_text keyword)) : gset string).
  set (t_words := list_to_set (Text.split (normalize_text video_title)) : gset string).
  destruct (decide (k_words = ∅)) as [He|He]; [done|].
  assert (Hn : size k_words <> 0).
  { intros H0. apply He. apply leibniz_equiv. by apply size_empty_inv. }
  simpl. intros H%Nat.leb_le.
  destruct (String.eqb strictness "strict"); [by apply Nat.leb_le|].
  apply half_ratio; [done|]. unfold required_matches in H.
  destruct (1 <? size k_words) eqn:E.
  - apply Nat.ltb_lt in E. lia.
  - apply Nat.ltb_ge in E. lia.
Qed.

Lemma is_video_relevant_strict_relaxed_witness :
  is_video_relevant "relaxed" "funny cat video" "cat video compilation" = true.
Proof. apply is_video_relevant_strict_relaxed. vm_compute. reflexivity. Defined.

(** X4: a title that is the keyword itself, in any letter case and with any
    surrounding white space, is relevant under every policy. *)
Theorem is_video_relevant_same (strictness keyword video_title : string) :
  normalize_text video_title = normalize_text keyword ->
  is_video_relevant strictness keyword video_title = true.
Proof.
  intros H. unfold is_video_relevant. by rewrite H, TextMore.str_in_refl.
Qed.

Lemma is_video_relevant_same_witness :
  is_video_relevant "strict" "cat video" "  CAT Video " = true.
Proof. apply is_video_relevant_same. reflexivity. Defined.

(** ** Keyword lists *)

(** X5: every keyword loaded from a file is a line of the file without its
    surrounding white space, is not empty and has at least one word; blank
    lines give no keyword, and the order of the lines is kept. *)
Theorem load_keywords_clean (lines : list string) :
  (forall k, k ∈ load_keywords lines ->
     k <> "" /\ Text.strip k = k /\ Text.split k <> []
     /\ exists line, line ∈ lines /\ k = Text.strip line)
  /\ (forall line, line ∈ lines -> Text.strip line <> "" ->
        Text.strip line ∈ load_keywords lines)
  /\ load_keywords lines `sublist_of` (Text.strip <$> lines).
Proof.
  unfold load_keywords. split; [|split].
  - intros k [Hne Hin]%list_elem_of_filter.
    apply list_elem_of_fmap in Hin as (line & -> & Hline).
    split; [done|]. split; [apply TextMore.strip_idempotent|].
    split; [|by exists line].
    destruct (TextFacts.strip_head line) as [E | (c & r & E & Hc)]; [done|].
    rewrite E. by apply TextFacts.split_head.
  - intros line Hin Hne. apply list_elem_of_filter. split; [done|].
    apply list_elem_of_fmap. by exists line.
  - apply sublist_filter.
Qed.

Lemma load_keywords_clean_witness :
  Text.split "cat video" <> [] /\ Text.strip "cat video" = "cat video".
Proof.
  destruct (load_keywords_clean ["  cat video "; "   "; "dog"]) as [H _].
  destruct (H "cat video") as (_ & Hs & Hw & _).
  - vm_compute. apply list_elem_of_here.
  - by split.
Defined.

(** ** Rows of the output table *)

Lemma append_not_empty (a b : string) : b <> "" -> a ++ b <> "".
Proof. intros Hb. destruct a as [|x a]; [done|]. by rewrite append_cons. Qed.

Lemma format_duration_not_empty (sec : Z) : format_duration sec <> "".
Proof.
  unfold format_duration.
  destruct (Z.div_eucl sec 60) as [m s]. destruct (Z.div_eucl m 60) as [h m'].
  destruct (0 <? h)%Z; by apply append_not_empty.
Qed.

Lemma truthy_not_empty (o : option string) (s : string) : truthy o = Some s -> s <> "".
Proof. destruct o as [[|]|]; simpl; congruence. Qed.

Lemma duration_str_not_empty (e : entry) : duration_str e <> "".
Proof.
  unfold duration_str.
  destruct (truthy (duration_string e)) as [d|] eqn:E;
    [by eapply truthy_not_empty|].
  destruct (duration e) as [sec|]; [|done].
  destruct (sec =? 0)%Z; [done | apply format_duration_not_empty].
Qed.

Lemma build_rows_shape_from (keyword : string) (rank_counter : nat)
    (entries : list (option entry)) :
  let rows := build_rows keyword rank_counter entries in
  row_rank <$> rows = seq rank_counter (length rows)
  /\ Forall (fun r => row_keyword r = keyword) rows
  /\ length rows <= length entries
  /\ Forall (fun r => row_title r <> "" /\ row_channel r <> ""
                      /\ row_duration r <> "") rows.
Proof.
  revert rank_counter.
  induction entries as [|[e|] entries IH]; intros rank_counter;
    cbn [build_rows].
  - by repeat constructor.
  - destruct (truthy (title e)) as [t|] eqn:E.
    + destruct (IH (S rank_counter)) as (H1 & H2 & H3 & H4).
      split; [by rewrite fmap_cons, H1|]. split; [by constructor|].
      split; [simpl; lia|].
      constructor; [|done]. simpl.
      split; [by eapply truthy_not_empty|]. split; [|apply duration_str_not_empty].
      unfold or_else.
      destruct (truthy (uploader e)) eqn:Eu; simpl;
        [by eapply truthy_not_empty|].
      destruct (truthy (channel e)) eqn:Ec; simpl;
        [by eapply truthy_not_empty | done].
    + destruct (IH rank_counter) as (H1 & H2 & H3 & H4).
      split; [done|]. split; [done|]. split; [simpl; lia | done].
  - destruct (IH rank_counter) as (H1 & H2 & H3 & H4).
    split; [done|]. split; [done|]. split; [simpl; lia | done].
Qed.

(** X6: the rows built for a keyword are numbered 1, 2, 3, ... without a
    gap, all carry the keyword, are not more than the entries received, and
    never have an empty title, channel or duration cell. *)
Theorem build_rows_shape (keyword : string) (entries : list (option entry)) :
  let rows := build_rows keyword 1 entries in
  row_rank <$> rows = seq 1 (length rows)
  /\ Forall (fun r => row_keyword r = keyword) rows
  /\ length rows <= length entries
  /\ Forall (fun r => row_title r <> "" /\ row_channel r <> ""
                      /\ row_duration r <> "") rows.
Proof. apply build_rows_shape_from. Qed.

(** ** Suggestion client: bounds and soundness *)

Section suggestion_bounds.

Implicit Types (net : nat -> string -> reply) (f : fetch) (url query : string).

Lemma total_snoc (l : list Q) (t : Q) : (total (l ++ [t]) == total l + t)%Q.
Proof.
  induction l as [|x l IH]; simpl; [ring|]. rewrite IH. ring.
Qed.


(** The pauses of the attempts on one endpoint add up to at most
    [2 (a + 1) + ... + 2 (a + r)] seconds. *)
Lemma try_endpoint_sleeps net url (remaining attempt : nat) f :
  (total (sleeps (try_endpoint net url remaining attempt f))
   <= total (sleeps f)
      + inject_Z (Z.of_nat remaining * (2 * Z.of_nat attempt + Z.of_nat remaining + 1)))%Q.
Proof.
  revert attempt f. induction remaining as [|r IH]; intros attempt f.
  - simpl.
    change (Z.of_nat 0 * (2 * Z.of_nat attempt + Z.of_nat 0 + 1))%Z with 0%Z.
    change (inject_Z 0) with 0%Q. lra.
  - rewrite try_endpoint_step.
    assert (Hnext : forall t : Q,
      (t <= inject_Z (2 * (Z.of_nat attempt + 1)))%Q ->
      (total (sleeps (try_endpoint net url r (S attempt) (slept t (sent url f))))
       <= total (sleeps f)
          + inject_Z (Z.of_nat (S r) * (2 * Z.of_nat attempt + Z.of_nat (S r) + 1)))%Q).
    { intros t Ht. eapply Qle_trans; [apply IH|]. simpl sleeps.
      rewrite total_snoc.
      replace (Z.of_nat (S r) * (2 * Z.of_nat attempt + Z.of_nat (S r) + 1))%Z
        with (2 * (Z.of_nat attempt + 1)
              + Z.of_nat r * (2 * Z.of_nat (S attempt) + Z.of_nat r + 1))%Z by lia.
      rewrite inject_Z_plus. lra. }
    assert (Hstop : (total (sleeps f)
       <= total (sleeps f)
          + inject_Z (Z.of_nat (S r) * (2 * Z.of_nat attempt + Z.of_nat (S r) + 1)))%Q).
    { assert (0 <= inject_Z (Z.of_nat (S r) * (2 * Z.of_nat attempt + Z.of_nat (S r) + 1)))%Q
        by (change 0%Q with (inject_Z 0); rewrite <- Zle_Qle; lia).
      lra. }
    assert (H1 : (1 <= inject_Z (2 * (Z.of_nat attempt + 1)))%Q)
      by (change 1%Q with (inject_Z 1); rewrite <- Zle_Qle; lia).
    destruct (net (length (requests f)) url) as [|code body]; [by apply Hnext|].
    destruct (code =? 200)%Z.
    + destruct body; [exact Hstop | by apply Hnext].
    + destruct (code =? 403)%Z; [|exact Hstop].
      apply Hnext. rewrite <- Zle_Qle. lia.
Qed.

(** A suggestion in the result was there before or comes from the body of
    an answer with status 200. *)
Lemma try_endpoint_sound net url (remaining attempt : nat) f (s : string) :
  s ∈ results (try_endpoint net url remaining attempt f) ->
  s ∈ results f
  \/ exists n data, net n url = Response 200 (Some data) /\ s ∈ collect data ∅.
Proof.
  revert attempt f. induction remaining as [|r IH]; intros attempt f; [by left|].
  rewrite try_endpoint_step.
  assert (Hnext : forall t a,
    s ∈ results (try_endpoint net url r a (slept t (sent url f))) ->
    s ∈ results f
    \/ exists n data, net n url = Response 200 (Some data) /\ s ∈ collect data ∅).
  { intros t a H. apply IH in H. exact H. }
  destruct (net (length (requests f)) url) as [|code body] eqn:E;
    [apply Hnext|].
  destruct (code =? 200)%Z eqn:Ec.
  - destruct body as [data|]; [|apply Hnext].
    apply Z.eqb_eq in Ec as ->. simpl.
    assert (Hc : collect data (results f) = collect data ∅ ∪ results f)
      by (by rewrite <- collect_union, union_empty_l_L).
    rewrite Hc. intros [H|H]%elem_of_union; [|by left].
    right. by exists (length (requests f)), data.
  - destruct (code =? 403)%Z; [apply Hnext|]. intros H. by left.
Qed.


Lemma query_endpoints_sleeps (endpoints : list string) net query f :
  (total (sleeps (query_endpoints endpoints net query f))
   <= total (sleeps f) + inject_Z (12 * Z.of_nat (length endpoints)))%Q.
Proof.
  unfold query_endpoints. revert f.
  induction endpoints as [|e endpoints IH]; intros f; cbn [fold_left].
  - simpl. change (inject_Z (12 * Z.of_nat 0)) with 0%Q. lra.
  - eapply Qle_trans; [apply IH|].
    pose proof (try_endpoint_sleeps net (format e query) 3 0 f) as H.
    change (inject_Z (Z.of_nat 3 * (2 * Z.of_nat 0 + Z.of_nat 3 + 1)))
      with (inject_Z 12) in H.
    replace (12 * Z.of_nat (length (e :: endpoints)))%Z
      with (12 + 12 * Z.of_nat (length endpoints))%Z by (simpl length; lia).
    rewrite inject_Z_plus. lra.
Qed.

Lemma query_endpoints_sound (endpoints : list string) net query f (s : string) :
  s ∈ results (query_endpoints endpoints net query f) ->
  s ∈ results f
  \/ exists n url data, net n url = Response 200 (Some data) /\ s ∈ collect data ∅.
Proof.
  unfold query_endpoints. revert f.
  induction endpoints as [|e endpoints IH]; intros f; cbn [fold_left]; [by left|].
  intros [H | H]%IH; [|by right].
  apply try_endpoint_sound in H as [H | (n & data & Hn & Hs)]; [by left|].
  right. by exists n, (format e query), data.
Qed.


(** X8: the pauses of a call of the suggestion client add up to at most 24
    seconds: 2, 4 and 6 seconds at most for each of the two endpoints. *)
Theorem get_suggestions_pauses net query :
  (total (sleeps (get_suggestions net query)) <= 24)%Q.
Proof.
  pose proof (query_endpoints_sleeps ENDPOINTS net query empty_fetch) as H.
  unfold get_suggestions, get_suggestions_from.
  eapply Qle_trans; [exact H|]. vm_compute. discriminate.
Qed.

(** X9: every suggestion returned was read from the body of an answer with
    status 200 that decoded: the client invents nothing. *)
Theorem get_suggestions_sound net query (s : string) :
  s ∈ results (get_suggestions net query) ->
  exists n url data, net n url = Response 200 (Some data) /\ s ∈ collect data ∅.
Proof.
  intros [H | H]%query_endpoints_sound; [|done].
  by apply elem_of_empty in H.
Qed.

(** X10: when no request is answered with status 200 and a body that
    decodes, whatever else happens (exceptions, 403, other statuses), the
    client returns the empty set. *)
Theorem get_suggestions_failure net query :
  (forall n url data, net n url <> Response 200 (Some data)) ->
  results (get_suggestions net query) = ∅.
Proof.
  intros Hnet. apply leibniz_equiv. apply elem_of_equiv_empty. intros s Hs.
  apply query_endpoints_sound in Hs as [Hs | (n & url & data & Hn & _)].
  - by apply elem_of_empty in Hs.
  - by apply (Hnet n url data).
Qed.

End suggestion_bounds.

Lemma get_suggestions_sound_witness :
  exists n url data,
    two_languages n url = Response 200 (Some data) /\ "cat cartoon" ∈ collect data ∅.
Proof.
  apply (get_suggestions_sound two_languages "cat").
  assert (Hf : results (get_suggestions two_languages "cat")
               = {["cat video"; "cat cartoon"]}) by (vm_compute; reflexivity).
  rewrite Hf. clear Hf. set_solver.
Defined.

Lemma get_suggestions_failure_witness :
  results (get_suggestions (fun _ _ => Response 403 None) "cat") = ∅.
Proof. apply get_suggestions_failure. intros n url data. discriminate. Defined.

(** ** Frontier store: what a run keeps *)

Section frontier_invariant.

Implicit Types (st : store) (kw s t : string) (depth : Z) (seeds : list string)
  (net : nat -> nat -> string -> reply).

Lemma empty_store_inv seeds : frontier_inv seeds empty_store.
Proof.
  split; simpl.
  - constructor.
  - intros t H. by apply elem_of_empty in H.
  - intros t d H. by rewrite lookup_empty in H.
  - intros t o H. by rewrite lookup_empty in H.
  - intros p c H. rewrite lookup_empty in H. by apply elem_of_nil in H.
  - done.
  - change (size (∅ : gset string) <= MAX_KEYWORDS). rewrite size_empty. lia.
Qed.

Lemma is_Some_insert {A} (m : gmap string A) (i j : string) (x : A) :
  is_Some (m !! j) -> is_Some (<[i := x]> m !! j).
Proof.
  intros H. destruct (decide (i = j)) as [->|Hne].
  - rewrite lookup_insert_eq. by eexists.
  - by rewrite lookup_insert_ne.
Qed.

Lemma enqueue_seed_inv seeds st kw :
  kw ∈ seeds -> frontier_inv seeds st -> frontier_inv seeds (enqueue_seed st kw).
Proof.
  intros Hkw [Hq Hc Hd Ho He Hf Hcap]. split; simpl; try done.
  - apply Forall_app. split.
    + eapply Forall_impl; [exact Hq|]. intros t (H1 & H2 & H3).
      split; [by apply is_Some_insert|]. split; [by apply is_Some_insert | done].
    + constructor; [|constructor].
      rewrite !lookup_insert_eq. split; [by eexists|].
      split; [by eexists | by left].
  - intros t Ht. destruct (Hc t Ht) as ((d & Hdt & Hb) & H2 & H3).
    split; [|split; [by apply is_Some_insert | done]].
    destruct (decide (kw = t)) as [->|Hne].
    + exists 0%Z. rewrite lookup_insert_eq. split; [done|]. unfold MAX_DEPTH. lia.
    + exists d. by rewrite lookup_insert_ne.
  - intros t d. destruct (decide (kw = t)) as [->|Hne].
    + rewrite lookup_insert_eq. intros [= <-]. unfold MAX_DEPTH. lia.
    + rewrite lookup_insert_ne by done. apply Hd.
  - intros t o. destruct (decide (kw = t)) as [->|Hne].
    + rewrite lookup_insert_eq. by intros [= <-].
    + rewrite lookup_insert_ne by done. apply Ho.
Qed.

Lemma init_store_inv seeds : frontier_inv seeds (init_store seeds).
Proof.
  unfold init_store.
  assert (H : forall l st, l ⊆ seeds -> frontier_inv seeds st ->
                frontier_inv seeds (fold_left enqueue_seed l st)).
  { induction l as [|kw l IH]; intros st Hl Hst; [done|]. simpl.
    apply IH; [set_solver|]. apply enqueue_seed_inv; [set_solver | done]. }
  apply H; [done | apply empty_store_inv].
Qed.

(** The second critical section keeps the invariant, for an allowed
    suggestion of a collected term claimed within the depth limit. *)
Lemma accept_child_inv seeds kw depth st s :
  kw ∈ collected st -> (0 <= depth <= MAX_DEPTH)%Z -> is_allowed s = true ->
  frontier_inv seeds st -> frontier_inv seeds (accept_child kw depth st s).
Proof.
  intros Hkw Hdepth Hs [Hq Hc Hd Ho He Hf Hcap].
  assert (Hedges : forall p c,
    c ∈ default [] (<[kw := (default [] (keyword_tree st !! kw) ++ [s])%list]>
                      (keyword_tree st) !! p) ->
    p ∈ collected st /\ is_allowed c = true).
  { intros p c. destruct (decide (kw = p)) as [->|Hne].
    - rewrite lookup_insert_eq. simpl.
      intros [H | H]%elem_of_app; [by apply He|].
      apply list_elem_of_singleton in H as ->. done.
    - rewrite lookup_insert_ne by done. apply He. }
  unfold accept_child. destruct (decide (s ∈ collected st)) as [Hin|Hin].
  { split; simpl; done. }
  assert (Hsrc : forall t, is_Some (keyword_source st !! t) ->
    is_Some (match keyword_source st !! s with
             | Some _ => keyword_source st
             | None => <[s := default kw (keyword_source st !! kw)]> (keyword_source st)
             end !! t)).
  { intros t Ht. destruct (keyword_source st !! s); [done|].
    by apply is_Some_insert. }
  split; simpl; try done.
  - apply Forall_app. split.
    + eapply Forall_impl; [exact Hq|]. intros t (H1 & H2 & H3).
      split; [by apply is_Some_insert|]. split; [by apply Hsrc | done].
    + constructor; [|constructor].
      rewrite lookup_insert_eq. split; [by eexists|]. split; [|by right].
      destruct (keyword_source st !! s) eqn:E; [by rewrite E|].
      rewrite lookup_insert_eq. by eexists.
  - intros t Ht. destruct (Hc t Ht) as ((d & Hdt & Hb) & H2 & H3).
    split; [|split; [by apply Hsrc | done]].
    exists d. rewrite lookup_insert_ne; [done|]. by intros ->.
  - intros t d. destruct (decide (s = t)) as [->|Hne].
    + rewrite lookup_insert_eq. intros [= <-]. lia.
    + rewrite lookup_insert_ne by done. apply Hd.
  - intros t o. destruct (keyword_source st !! s) eqn:E; [apply Ho|].
    destruct (decide (s = t)) as [->|Hne].
    + rewrite lookup_insert_eq. intros [= <-].
      destruct (Hc kw Hkw) as (_ & [o Hkwo] & _). rewrite Hkwo. simpl.
      by eapply Ho.
    + rewrite lookup_insert_ne by done. apply Ho.
Qed.

Lemma accept_child_collected kw depth st s :
  collected (accept_child kw depth st s) = collected st.
Proof. unfold accept_child. by destruct (decide (s ∈ collected st)). Qed.

Lemma accept_children_inv seeds kw depth (suggestions : list string) st :
  kw ∈ collected st -> (0 <= depth <= MAX_DEPTH)%Z ->
  frontier_inv seeds st ->
  frontier_inv seeds (accept_children kw depth suggestions st).
Proof.
  unfold accept_children. revert st.
  induction suggestions as [|s l IH]; intros st Hkw Hd Hst; [done|].
  cbn [fold_left]. destruct (is_allowed s) eqn:Hs; [|by apply IH].
  apply IH; [by rewrite accept_child_collected | done |].
  by apply accept_child_inv.
Qed.

(** A round of the worker keeps the invariant. *)
Lemma worker_round_inv seeds net st :
  frontier_inv seeds st -> frontier_inv seeds (worker_round net st).2.
Proof.
  intros Hst. unfold worker_round.
  destruct (task_queue st) as [|kw q] eqn:Eq; [done|].
  destruct Hst as [Hq Hc Hd Ho He Hf Hcap].
  rewrite Eq in Hq. apply Forall_cons in Hq as [(Hkd & Hks & Hka) Hq].
  assert (Hclaimed : frontier_inv seeds (claimed q st)) by (by split).
  change (depth_map (claimed q st)) with (depth_map st).
  change (collected (claimed q st)) with (collected st).
  destruct (MAX_KEYWORDS <=? size (collected st)) eqn:Ecap; [done|].
  apply Nat.leb_gt in Ecap.
  destruct Hkd as [d Hkd]. rewrite Hkd. simpl default.
  destruct (MAX_DEPTH <? d)%Z eqn:Edepth; [done|].
  apply Z.ltb_ge in Edepth. pose proof (Hd kw d Hkd) as Hd0.
  cbn [snd].
  apply accept_children_inv.
  - unfold mark_collected.
    destruct (decide (kw ∈ collected (fetching kw (claimed q st)))); [done|].
    simpl. apply elem_of_union. left. by apply elem_of_singleton.
  - lia.
  - unfold mark_collected. simpl.
    destruct (decide (kw ∈ collected st)) as [Hin|Hin].
    + split; simpl; try done.
      rewrite list_to_set_app_L, Hf. simpl. rewrite union_empty_r_L.
      rewrite (comm_L (∪)). by apply subseteq_union_1_L, singleton_subseteq_l.
    + split; simpl; try done.
      * intros t [Ht | Ht]%elem_of_union; [|by apply Hc].
        apply elem_of_singleton in Ht as ->.
        split; [exists d; split; [done | lia]|]. done.
      * intros p c Hpc. destruct (He p c Hpc).
        split; [apply elem_of_union; by right | done].
      * rewrite list_to_set_app_L, Hf. simpl. rewrite union_empty_r_L.
        apply (comm_L (∪)).
      * rewrite size_union by (by apply disjoint_singleton_l).
        rewrite size_singleton. lia.
Qed.

(** Every run from the seeds ends in a store that satisfies the
    invariant. *)
Lemma keyword_worker_inv seeds (fuel : nat) net :
  frontier_inv seeds (keyword_worker fuel net (init_store seeds)).
Proof.
  assert (H : forall st, frontier_inv seeds st ->
                frontier_inv seeds (keyword_worker fuel net st)).
  { induction fuel as [|n IH]; intros st Hst; [done|]. simpl.
    pose proof (worker_round_inv seeds net st Hst) as Hr.
    destruct (worker_round net st) as [[] st']; [by apply IH | done]. }
  apply H, init_store_inv.
Qed.

End frontier_invariant.

(** ** Frontier store: what a run never undoes *)

Section frontier_growth.

Implicit Types (st : store) (kw s t : string) (depth : Z)
  (net : nat -> nat -> string -> reply).

Lemma later_store_refl st : later_store st st.
Proof. repeat split; done. Qed.

Lemma later_store_trans st1 st2 st3 :
  later_store st1 st2 -> later_store st2 st3 -> later_store st1 st3.
Proof.
  intros (C1 & T1 & S1 & D1 & F1) (C2 & T2 & S2 & D2 & F2).
  split; [by etrans|].
  split; [intros p; etrans; [apply T1 | apply T2]|].
  split; [intros t o H; by apply S2, S1|].
  split; [|by etrans].
  intros t Ht. rewrite D2 by (by apply C1). by apply D1.
Qed.

Lemma accept_child_later kw depth st s : later_store st (accept_child kw depth st s).
Proof.
  split; [by rewrite accept_child_collected|].
  split; [|split; [|split]].
  - intros p. unfold accept_child.
    assert (H : default [] (keyword_tree st !! p) `prefix_of`
      default [] (<[kw := (default [] (keyword_tree st !! kw) ++ [s])%list]>
                    (keyword_tree st) !! p)).
    { destruct (decide (kw = p)) as [->|Hne].
      - rewrite lookup_insert_eq. simpl. by apply prefix_app_r.
      - by rewrite lookup_insert_ne. }
    by destruct (decide (s ∈ collected st)).
  - intros t o. apply accept_child_origin_kept.
  - intros t. apply accept_child_depth_frozen.
  - unfold accept_child. by destruct (decide (s ∈ collected st)).
Qed.

Lemma accept_children_later kw depth (suggestions : list string) st :
  later_store st (accept_children kw depth suggestions st).
Proof.
  unfold accept_children. revert st.
  induction suggestions as [|s l IH]; intros st; [apply later_store_refl|].
  cbn [fold_left]. destruct (is_allowed s); [|apply IH].
  eapply later_store_trans; [apply accept_child_later | apply IH].
Qed.

Lemma worker_round_later net st : later_store st (worker_round net st).2.
Proof.
  unfold worker_round.
  destruct (task_queue st) as [|kw q]; [apply later_store_refl|].
  assert (Hclaimed : later_store st (claimed q st)) by (repeat split; done).
  destruct (MAX_KEYWORDS <=? size (collected (claimed q st))); [done|].
  destruct (MAX_DEPTH <? default 0 (depth_map (claimed q st) !! kw))%Z; [done|].
  cbn [snd]. eapply later_store_trans; [|apply accept_children_later].
  unfold mark_collected. simpl.
  destruct (decide (kw ∈ collected st)).
  - repeat split; simpl; try done. by apply prefix_app_r.
  - repeat split; simpl; try done; [|by apply prefix_app_r].
    apply union_subseteq_r.
Qed.

Lemma keyword_worker_grows (fuel : nat) net st :
  later_store st (keyword_worker fuel net st).
Proof.
  revert st. induction fuel as [|n IH]; intros st; [apply later_store_refl|].
  simpl. pose proof (worker_round_later net st) as Hr.
  destruct (worker_round net st) as [[] st']; [|done].
  eapply later_store_trans; [exact Hr | apply IH].
Qed.

(** X11: a run of the worker never undoes anything: a collected term stays
    collected, a recorded parent-child edge stays in place (new children
    are appended), a recorded origin is never changed, the depth of a
    collected term is never changed, and the calls of [get_suggestions]
    made so far stay on record. *)
Theorem keyword_worker_later (fuel : nat) net st :
  later_store st (keyword_worker fuel net st).
Proof. apply keyword_worker_grows. Qed.

End frontier_growth.

(** ** Frontier store: what holds after every run from the seeds *)

Section frontier_run.

Implicit Types (st : store) (kw s t : string) (seeds : list string)
  (net : nat -> nat -> string -> reply).

(** X12: after any run from the seeds, every collected term has a recorded
    depth between 0 and [MAX_DEPTH] and a recorded origin, which is one of
    the seeds. *)
Theorem collected_recorded seeds (fuel : nat) net t :
  let st := keyword_worker fuel net (init_store seeds) in
  t ∈ collected st ->
  exists d o, depth_map st !! t = Some d /\ (0 <= d <= MAX_DEPTH)%Z
              /\ keyword_source st !! t = Some o /\ o ∈ seeds.
Proof.
  intros st Ht. destruct (keyword_worker_inv seeds fuel net) as [_ Hc _ Ho _ _ _].
  destruct (Hc t Ht) as ((d & Hd & Hb) & [o Hso] & _).
  exists d, o. repeat split; try done; [lia | lia | by eapply Ho].
Qed.

(** X13: after any run from the seeds, no recorded depth is negative or
    exceeds [MAX_DEPTH + 1], and every recorded origin is one of the
    seeds. *)
Theorem recorded_range seeds (fuel : nat) net :
  let st := keyword_worker fuel net (init_store seeds) in
  map_Forall (fun _ d => (0 <= d <= MAX_DEPTH + 1)%Z) (depth_map st)
  /\ map_Forall (fun _ o => o ∈ seeds) (keyword_source st).
Proof.
  intros st. destruct (keyword_worker_inv seeds fuel net) as [_ _ Hd Ho _ _ _].
  split; intros t x H; [by eapply Hd | by eapply Ho].
Qed.

(** X14: after any run from the seeds, every term that is collected or on
    the queue is a seed or passes the filter, and every recorded edge goes
    from a collected term to a term that passes the filter. *)
Theorem filter_enforced seeds (fuel : nat) net :
  let st := keyword_worker fuel net (init_store seeds) in
  (forall t, t ∈ collected st \/ t ∈ task_queue st ->
     t ∈ seeds \/ is_allowed t = true)
  /\ (forall p c, c ∈ default [] (keyword_tree st !! p) ->
        p ∈ collected st /\ is_allowed c = true).
Proof.
  intros st. destruct (keyword_worker_inv seeds fuel net) as [Hq Hc _ _ He _ _].
  split; [|exact He].
  intros t [Ht | Ht]; [by apply Hc|].
  rewrite Forall_forall in Hq. by apply Hq.
Qed.

(** X15: after any run from the seeds, the terms [get_suggestions] was
    called on are exactly the collected terms, and one worker running alone
    never collects more than [MAX_KEYWORDS] terms. *)
Theorem fetched_collected seeds (fuel : nat) net :
  let st := keyword_worker fuel net (init_store seeds) in
  list_to_set (fetched st) = collected st
  /\ size (collected st) <= MAX_KEYWORDS.
Proof.
  intros st. by destruct (keyword_worker_inv seeds fuel net) as [_ _ _ _ _ Hf Hcap].
Qed.

End frontier_run.

Lemma collected_recorded_witness :
  exists d o,
    depth_map (keyword_worker 10 (fun _ => suggesting shared_child)
                 (init_store ["cat"; "kitten"])) !! "cat video" = Some d
    /\ (0 <= d <= MAX_DEPTH)%Z
    /\ keyword_source (keyword_worker 10 (fun _ => suggesting shared_child)
                         (init_store ["cat"; "kitten"])) !! "cat video" = Some o
    /\ o ∈ ["cat"; "kitten"].
Proof.
  apply (collected_recorded ["cat"; "kitten"] 10
           (fun _ => suggesting shared_child) "cat video").
  assert (H : collected (keyword_worker 10 (fun _ => suggesting shared_child)
                (init_store ["cat"; "kitten"]))
              = {["cat"; "kitten"; "cat video"; "cat video funny"]})
    by (vm_compute; reflexivity).
  rewrite H. clear H. set_solver.
Defined.

Lemma filter_enforced_witness :
  "cat video" ∈ ["cat"; "kitten"] \/ is_allowed "cat video" = true.
Proof.
  destruct (filter_enforced ["cat"; "kitten"] 10
              (fun _ => suggesting shared_child)) as [H _].
  apply H. left.
  assert (Hc : collected (keyword_worker 10 (fun _ => suggesting shared_child)
                 (init_store ["cat"; "kitten"]))
               = {["cat"; "kitten"; "cat video"; "cat video funny"]})
    by (vm_compute; reflexivity).
  rewrite Hc. clear Hc. set_solver.
Defined.

(** ** Seeds and the result of the expansion *)

Section seeds.

Implicit Types (st : store) (kw t : string) (seeds : list string)
  (net : nat -> nat -> string -> reply).

Lemma enqueue_seeds_shape (l : list string) st :
  let st' := fold_left enqueue_seed l st in
  task_queue st' = (task_queue st ++ l)%list
  /\ collected st' = collected st
  /\ (forall t, t ∈ l \/ keyword_source st !! t = Some t ->
        keyword_source st' !! t = Some t)
  /\ (forall t, t ∈ l \/ depth_map st !! t = Some 0%Z ->
        depth_map st' !! t = Some 0%Z).
Proof.
  revert st. induction l as [|kw l IH]; intros st; cbn [fold_left].
  - split; [by rewrite app_nil_r|]. split; [done|].
    split; intros t [Ht | Ht]; try done; by apply elem_of_nil in Ht.
  - destruct (IH (enqueue_seed st kw)) as (Hq & Hc & Hs & Hd). simpl in *.
    split; [by rewrite Hq, <- (assoc_L (++))|]. split; [done|].
    split; intros t Ht.
    + apply Hs. destruct (decide (kw = t)) as [->|Hne];
        [right; apply lookup_insert_eq|].
      destruct Ht as [[->|Ht]%elem_of_cons | Ht]; [done | by left |].
      right. by rewrite lookup_insert_ne.
    + apply Hd. destruct (decide (kw = t)) as [->|Hne];
        [right; apply lookup_insert_eq|].
      destruct Ht as [[->|Ht]%elem_of_cons | Ht]; [done | by left |].
      right. by rewrite lookup_insert_ne.
Qed.

(** X16: after any run, every seed still has itself as its origin, whatever
    term suggested it in between. *)
Theorem seed_origin seeds (fuel : nat) net t :
  t ∈ seeds ->
  keyword_source (keyword_worker fuel net (init_store seeds)) !! t = Some t.
Proof.
  intros Ht.
  destruct (keyword_worker_grows fuel net (init_store seeds)) as (_ & _ & Hs & _).
  apply Hs. unfold init_store.
  destruct (enqueue_seeds_shape seeds empty_store) as (_ & _ & H & _).
  apply H. by left.
Qed.

(** X17: the expansion ends with nothing to save exactly when there is no
    seed: with at least one seed, the first seed is collected whatever the
    network does. *)
Theorem scrape_keywords_none seeds (fuel : nat) net :
  scrape_keywords seeds (S fuel) net = None <-> seeds = [].
Proof.
  split; [|by intros ->].
  destruct seeds as [|kw l]; [done|]. intros H. exfalso.
  unfold scrape_keywords, save_keywords in H.
  destruct (decide (collected (keyword_worker (S fuel) net (init_store (kw :: l))) = ∅))
    as [He|]; [|done]. clear H.
  destruct (enqueue_seeds_shape (kw :: l) empty_store) as (Hq & Hc & _ & Hd).
  fold (init_store (kw :: l)) in Hq, Hc, Hd. simpl in Hq, Hc.
  specialize (Hd kw (or_introl (list_elem_of_here _ _))).
  assert (Hin : kw ∈ collected (keyword_worker (S fuel) net (init_store (kw :: l)))).
  { cbn [keyword_worker].
    assert (Hr : exists st', worker_round net (init_store (kw :: l)) = (Looping, st')
                             /\ kw ∈ collected st').
    { unfold worker_round. rewrite Hq.
      change (collected (claimed l (init_store (kw :: l))))
        with (collected (init_store (kw :: l))).
      change (depth_map (claimed l (init_store (kw :: l))))
        with (depth_map (init_store (kw :: l))).
      rewrite Hc, Hd. rewrite size_empty. cbn [default].
      change (MAX_KEYWORDS <=? 0) with false.
      change (MAX_DEPTH <? 0)%Z with false. cbv iota.
      eexists. split; [reflexivity|].
      apply (proj1 (accept_children_later _ _ _ _)).
      unfold mark_collected.
      destruct (decide (kw ∈ collected (fetching kw (claimed l (init_store (kw :: l))))));
        [done|].
      simpl. apply elem_of_union. left. by apply elem_of_singleton. }
    destruct Hr as (st' & -> & Hk).
    by apply (proj1 (keyword_worker_grows fuel net st')). }
  rewrite He in Hin. by apply elem_of_empty in Hin.
Qed.


End seeds.

Lemma seed_origin_witness :
  keyword_source (keyword_worker 10 (fun _ => suggesting seed_suggested)
                    (init_store ["python"; "python tutorial"])) !! "python tutorial"
  = Some "python tutorial".
Proof. apply seed_origin. apply list_elem_of_further, list_elem_of_here. Defined.


(** ** Writing the harvest and reading it back *)

Section harvest_files.

Variable analyze : list string -> string.

Implicit Types (fs : gmap string (list csv_item)) (h : harvest)
  (ydl : nat -> nat -> extracted) (rand : nat -> nat -> Q).

Lemma write_rows_file (output_file : string) h fs (content : list csv_item) :
  fs !! output_file = Some content ->
  write_rows output_file h fs !! output_file
  = Some (content ++ (Row ∘ csv_cells <$> default [] (written h)))%list.
Proof.
  intros H. unfold write_rows. destruct (written h) as [[|r rows]|]; simpl.
  - by rewrite app_nil_r.
  - by rewrite lookup_insert_eq, H.
  - by rewrite app_nil_r.
Qed.

Lemma write_rows_other (output_file p : string) h fs :
  p <> output_file -> write_rows output_file h fs !! p = fs !! p.
Proof.
  intros H. unfold write_rows. destruct (written h) as [[|r rows]|]; try done.
  by rewrite lookup_insert_ne.
Qed.

(** The harvest appends the rows it wrote, in order, to a file that is
    there. *)
Lemma harvest_all_file ydl rand (output_file : string) (i : nat)
    (keywords_to_do : list string) fs (content : list csv_item) :
  fs !! output_file = Some content ->
  harvest_all ydl rand output_file i keywords_to_do fs !! output_file
  = Some (content ++ (Row ∘ csv_cells <$> harvested ydl rand i keywords_to_do))%list.
Proof.
  revert i fs content.
  induction keywords_to_do as [|k l IH]; intros i fs content H; simpl.
  - by rewrite app_nil_r.
  - erewrite IH by (by apply write_rows_file).
    by rewrite fmap_app, (assoc_L (++)).
Qed.

Lemma harvest_all_other ydl rand (output_file p : string) (i : nat)
    (keywords_to_do : list string) fs :
  p <> output_file ->
  harvest_all ydl rand output_file i keywords_to_do fs !! p = fs !! p.
Proof.
  intros Hp. revert i fs.
  induction keywords_to_do as [|k l IH]; intros i fs; simpl; [done|].
  by rewrite IH, write_rows_other.
Qed.

Lemma written_keyword (o : nat -> extracted) (r : nat -> Q) (k : string) (x : row) :
  x ∈ default [] (written (scrape_single_keyword true o r k)) -> row_keyword x = k.
Proof.
  assert (Hb : forall n entries y, y ∈ build_rows k n entries -> row_keyword y = k).
  { intros n entries y Hy.
    destruct (build_rows_shape_from k n entries) as (_ & H & _).
    rewrite Forall_forall in H. by apply H. }
  assert (H : forall remaining attempt,
    x ∈ default [] (written (retry k o r remaining attempt)) -> row_keyword x = k).
  { induction remaining as [|n IH]; intros attempt; simpl.
    - intros Hx. by apply elem_of_nil in Hx.
    - destruct (o attempt) as [msg|entries]; simpl; [|apply Hb].
      destruct (Text.str_in "429" msg); simpl;
        [intros Hx; by apply elem_of_nil in Hx|].
      destruct (Text.str_in "403" msg || Text.str_in "Forbidden" msg); simpl;
        [|intros Hx; by apply elem_of_nil in Hx].
      destruct (attempt <? 2); simpl;
        [apply IH | intros Hx; by apply elem_of_nil in Hx]. }
  apply H.
Qed.

Lemma harvested_keywords ydl rand (i : nat) (keywords_to_do : list string) (x : row) :
  x ∈ harvested ydl rand i keywords_to_do -> row_keyword x ∈ keywords_to_do.
Proof.
  revert i. induction keywords_to_do as [|k l IH]; intros i; simpl.
  - intros Hx. by apply elem_of_nil in Hx.
  - intros [Hx | Hx]%elem_of_app.
    + apply written_keyword in Hx as ->. apply list_elem_of_here.
    + apply list_elem_of_further. by eapply IH.
Qed.

Lemma first_cells (rows : list row) :
  omap head (csv_cells <$> rows) = row_keyword <$> rows.
Proof. induction rows as [|r rows IH]; simpl; [done|]. f_equal. exact IH. Qed.

(** X19: what the harvest writes, the resume logic reads back: from a file
    made of the header row and the rows written for any keywords, it
    returns exactly the keywords of these rows. *)
Theorem read_processed_written (rows : list row) :
  read_processed (Row HEADER :: (Row ∘ csv_cells <$> rows))
  = list_to_set (row_keyword <$> rows).
Proof.
  simpl. rewrite list_fmap_compose, <- (app_nil_r (Row <$> _)).
  rewrite read_rows_until by (by left).
  by rewrite first_cells, union_empty_r_L.
Qed.

(** X20: the harvest only appends to its output file and touches no other
    file: the content the file had is a prefix of the content it has
    afterwards, and what is added are the rows of keywords of the list. *)
Theorem harvest_all_appends ydl rand (output_file : string) (i : nat)
    (keywords_to_do : list string) fs (content : list csv_item) :
  fs !! output_file = Some content ->
  let fs' := harvest_all ydl rand output_file i keywords_to_do fs in
  (exists rows,
      fs' !! output_file = Some (content ++ (Row ∘ csv_cells <$> rows))%list
      /\ Forall (fun r => row_keyword r ∈ keywords_to_do) rows)
  /\ forall p, p <> output_file -> fs' !! p = fs !! p.
Proof.
  intros H fs'. split.
  - exists (harvested ydl rand i keywords_to_do).
    split; [by apply harvest_all_file|].
    apply Forall_forall. intros x. apply harvested_keywords.
  - intros p Hp. by apply harvest_all_other.
Qed.

(** X21: a harvest into a fresh output file, followed by a second start
    with the same name and timestamp: the second start reads as processed
    exactly the keywords for which rows were written, and schedules all the
    others again, among them every keyword that was abandoned or had no
    result. *)
Theorem resume_after_harvest ydl rand fs (lines : list string)
    (name timestamp : string) :
  name <> "" ->
  fs !! output_path name timestamp = None ->
  let output := output_path name timestamp in
  let keywords := load_keywords lines in
  let fs1 := harvest_all ydl rand output 0 keywords (<[output := [Row HEADER]]> fs) in
  let done := list_to_set (row_keyword <$> harvested ydl rand 0 keywords)
              : gset string in
  scrape_videos true analyze fs1 (Some lines) (Some name) timestamp
  = Some {| output_file := output;
            files := fs1;
            processed_keywords := done;
            keywords_to_do := filter (fun k => k ∉ done) keywords |}.
Proof.
  intros Hname Hfresh output keywords fs1 done.
  assert (Hfile : fs1 !! output
    = Some ([Row HEADER] ++ (Row ∘ csv_cells <$> harvested ydl rand 0 keywords))%list).
  { apply harvest_all_file. apply lookup_insert_eq. }
  rewrite (scrape_videos_existing analyze fs1 _ lines name timestamp Hname Hfile).
  change ([Row HEADER] ++ (Row ∘ csv_cells <$> harvested ydl rand 0 keywords))%list
    with (Row HEADER :: (Row ∘ csv_cells <$> harvested ydl rand 0 keywords)).
  assert (Hread : read_processed
      (Row HEADER :: (Row ∘ csv_cells <$> harvested ydl rand 0 keywords)) = done).
  { simpl. rewrite list_fmap_compose, <- (app_nil_r (Row <$> _)).
    rewrite read_rows_until by (by left).
    by rewrite first_cells, union_empty_r_L. }
  by rewrite Hread.
Qed.

End harvest_files.

Lemma harvest_all_appends_witness :
  harvest_all first_answered (fun _ => half) "Videos/cats_20240101_120000.csv" 0
    ["alpha"; "beta"] {["Videos/cats_20240101_120000.csv" := [Row HEADER]]}
    !! "Videos/old.csv" = None.
Proof.
  destruct (harvest_all_appends first_answered (fun _ => half)
              "Videos/cats_20240101_120000.csv" 0 ["alpha"; "beta"]
              {["Videos/cats_20240101_120000.csv" := [Row HEADER]]} [Row HEADER]
              (lookup_singleton_eq _ _)) as [_ H].
  rewrite H by discriminate. by apply lookup_singleton_ne.
Defined.

Lemma resume_after_harvest_witness :
  keywords_to_do <$>
    scrape_videos true (fun _ => "keywords")
      (harvest_all first_answered (fun _ => half)
         (output_path "cats" "20240101_120000") 0 (load_keywords ["alpha"; "beta"])
         (<[output_path "cats" "20240101_120000" := [Row HEADER]]> ∅))
      (Some ["alpha"; "beta"]) (Some "cats") "20240101_120000"
  = Some ["beta"].
Proof.
  rewrite (resume_after_harvest (fun _ => "keywords") first_answered
             (fun _ => half) ∅ ["alpha"; "beta"] "cats" "20240101_120000");
    [|discriminate | apply lookup_empty].
  vm_compute. reflexivity.
Defined.

(** ** Search client: the time a keyword can take *)

Section search_pauses.

Variables (ydl : nat -> extracted) (rand : nat -> Q) (keyword : string).

Hypothesis rand_unit : forall n, (0 <= rand n <= 1)%Q.

(** One round of the loop of the search client. *)
Lemma retry_step (n attempt : nat) :
  retry keyword ydl rand (S n) attempt =
    called
      match ydl attempt with
      | Info entries =>
          finish (rand attempt) (build_rows keyword 1 (default [] entries))
      | Raised msg =>
          if Text.str_in "429" msg then paused 60 abandon
          else if Text.str_in "403" msg || Text.str_in "Forbidden" msg then
            if attempt <? max_retries - 1 then
              paused (uniform 5 10 (rand attempt) + inject_Z (Z.of_nat attempt * 5))%Q
                     (retry keyword ydl rand n (S attempt))
            else abandon
          else abandon
      end.
Proof. reflexivity. Qed.

(** A round that does not go on to another attempt pauses 60 seconds at
    most. *)
Lemma last_round_pauses (attempt : nat) (next : harvest) (bound : Q) :
  (60 <= bound)%Q ->
  ((attempt <? max_retries - 1) = true ->
   (uniform 5 10 (rand attempt) + inject_Z (Z.of_nat attempt * 5)
    + total (pauses next) <= bound)%Q) ->
  (total (pauses
     (called
        match ydl attempt with
        | Info entries =>
            finish (rand attempt) (build_rows keyword 1 (default [] entries))
        | Raised msg =>
            if Text.str_in "429" msg then paused 60 abandon
            else if Text.str_in "403" msg || Text.str_in "Forbidden" msg then
              if attempt <? max_retries - 1 then
                paused (uniform 5 10 (rand attempt)
                        + inject_Z (Z.of_nat attempt * 5))%Q next
              else abandon
            else abandon
        end)) <= bound)%Q.
Proof.
  intros Hb Hnext. destruct (rand_unit attempt) as [H0 H1].
  destruct (ydl attempt) as [msg|entries].
  - destruct (Text.str_in "429" msg); [simpl; lra|].
    destruct (Text.str_in "403" msg || Text.str_in "Forbidden" msg);
      [|simpl; lra].
    destruct (attempt <? max_retries - 1); [|simpl; lra].
    simpl. specialize (Hnext eq_refl). lra.
  - simpl. unfold uniform. lra.
Qed.

Lemma retry_pauses_2 : (total (pauses (retry keyword ydl rand 1 2)) <= 60)%Q.
Proof.
  rewrite retry_step. apply last_round_pauses; [lra|]. discriminate.
Qed.

Lemma retry_pauses_1 : (total (pauses (retry keyword ydl rand 2 1)) <= 75)%Q.
Proof.
  rewrite retry_step. apply last_round_pauses; [lra|]. intros _.
  pose proof retry_pauses_2. destruct (rand_unit 1) as [H0 H1].
  unfold uniform. change (inject_Z (Z.of_nat 1 * 5)) with (5 # 1). lra.
Qed.

Lemma retry_pauses_0 : (total (pauses (retry keyword ydl rand 3 0)) <= 85)%Q.
Proof.
  rewrite retry_step. apply last_round_pauses; [lra|]. intros _.
  pose proof retry_pauses_1. destruct (rand_unit 0) as [H0 H1].
  unfold uniform. change (inject_Z (Z.of_nat 0 * 5)) with (0 # 1). lra.
Qed.

End search_pauses.

(** X22: whatever the provider does, the pauses of the search client for
    one keyword add up to at most 85 seconds: at most 10 and 15 seconds of
    backoff, then the 60 seconds of the cooldown or the closing pause of at
    most 3 seconds. *)
Theorem scrape_single_keyword_pauses (yt_dlp : bool) (ydl : nat -> extracted)
    (rand : nat -> Q) (keyword : string) :
  (forall n, 0 <= rand n <= 1)%Q ->
  (total (pauses (scrape_single_keyword yt_dlp ydl rand keyword)) <= 85)%Q.
Proof.
  intros Hrand. unfold scrape_single_keyword.
  destruct yt_dlp; [by apply retry_pauses_0 | simpl; lra].
Qed.

Lemma scrape_single_keyword_pauses_witness :
  (total (pauses (scrape_single_keyword true denied_then_throttled half "cat video"))
   <= 85)%Q.
Proof.
  apply scrape_single_keyword_pauses. intros n. unfold half. split; discriminate.
Defined.

(** ** The name of a run *)

Section run_name.

Implicit Types (s w : string) (counts : list (string * nat)) (p : ascii -> bool).

Lemma all_chars_app p (a b : string) :
  all_chars p (a ++ b) = all_chars p a && all_chars p b.
Proof.
  induction a as [|c a IH]; [done|].
  rewrite append_cons. simpl. by rewrite IH, andb_assoc.
Qed.

Lemma all_chars_impl p (q : ascii -> bool) s :
  (forall c, p c = true -> q c = true) ->
  all_chars p s = true -> all_chars q s = true.
Proof.
  intros Hpq. induction s as [|c s IH]; simpl; [done|].
  intros [Hc Hs]%andb_true_iff. by rewrite (Hpq c Hc), IH.
Qed.

Lemma clean_alnum s : all_chars is_alnum_lower (clean s) = true.
Proof.
  induction s as [|c s IH]; simpl; [done|].
  destruct (is_alnum_lower c) eqn:E; [|done]. simpl. by rewrite E.
Qed.

Lemma clean_name s : all_chars name_char (clean s) = true.
Proof.
  apply (all_chars_impl is_alnum_lower); [|apply clean_alnum].
  intros c Hc. unfold name_char. by rewrite Hc.
Qed.

Lemma substring_all_chars p (m : nat) s :
  all_chars p s = true -> all_chars p (substring 0 m s) = true.
Proof.
  revert s. induction m as [|m IH]; intros [|c s]; simpl; try done.
  intros [Hc Hs]%andb_true_iff. by rewrite Hc, IH.
Qed.

Lemma count_word_names w counts :
  all_chars name_char w = true ->
  Forall (fun kv => all_chars name_char kv.1 = true) counts ->
  Forall (fun kv => all_chars name_char kv.1 = true) (count_word w counts).
Proof.
  intros Hw. induction counts as [|[x n] counts IH]; simpl; intros H.
  - by repeat constructor.
  - apply Forall_cons in H as [Hx H].
    destruct (String.eqb x w); constructor; try done. by apply IH.
Qed.

Lemma count_keyword_names counts (kw : string) :
  Forall (fun kv => all_chars name_char kv.1 = true) counts ->
  Forall (fun kv => all_chars name_char kv.1 = true) (count_keyword counts kw).
Proof.
  unfold count_keyword. generalize (Text.split (Text.lower kw)) as words.
  intros words. revert counts.
  induction words as [|word words IH]; intros counts H; cbn [fold_left]; [done|].
  apply IH.
  destruct ((2 <? String.length (clean word))
            && negb (existsb (String.eqb (clean word)) stopwords)); [|done].
  apply count_word_names; [apply clean_name | done].
Qed.

Lemma word_counts_names (keywords : list string) counts :
  Forall (fun kv => all_chars name_char kv.1 = true) counts ->
  Forall (fun kv => all_chars name_char kv.1 = true)
         (fold_left count_keyword keywords counts).
Proof.
  revert counts. induction keywords as [|kw l IH]; intros counts H;
    cbn [fold_left]; [done|].
  by apply IH, count_keyword_names.
Qed.

Lemma insert_by_count_names (x : string * nat) counts :
  all_chars name_char x.1 = true ->
  Forall (fun kv => all_chars name_char kv.1 = true) counts ->
  Forall (fun kv => all_chars name_char kv.1 = true) (insert_by_count x counts).
Proof.
  intros Hx. induction counts as [|y counts IH]; simpl; intros H.
  - by repeat constructor.
  - apply Forall_cons in H as [Hy H].
    destruct (y.2 <=? x.2); repeat constructor; try done. by apply IH.
Qed.

Lemma most_common_names (n : nat) counts :
  Forall (fun kv => all_chars name_char kv.1 = true) counts ->
  Forall (fun w => all_chars name_char w = true) (fst <$> most_common n counts).
Proof.
  intros H. apply Forall_fmap. unfold most_common. apply Forall_take.
  induction H as [|x counts Hx H IH]; simpl; [constructor|].
  by apply insert_by_count_names.
Qed.

Lemma join_names (words : list string) :
  Forall (fun w => all_chars name_char w = true) words ->
  all_chars name_char (join "_" words) = true.
Proof.
  induction words as [|w words IH]; intros H; [done|].
  apply Forall_cons in H as [Hw H]. destruct words as [|w' words]; [done|].
  change (join "_" (w :: w' :: words)) with (w ++ "_" ++ join "_" (w' :: words)).
  rewrite !all_chars_app, Hw, IH by done. reflexivity.
Qed.

Lemma analyze_name_chars (keywords_list : list string) (max_words : nat) :
  all_chars name_char (analyze_keywords_for_name keywords_list max_words) = true.
Proof.
  unfold analyze_keywords_for_name. apply join_names.
  pose proof (most_common_names max_words
                (fold_left count_keyword (take 50 keywords_list) [])
                (word_counts_names _ [] (Forall_nil_2 _))) as H.
  destruct (fst <$> most_common max_words
                      (fold_left count_keyword (take 50 keywords_list) []))
    as [|w ws]; [|done].
  constructor; [|constructor].
  apply substring_all_chars, clean_name.
Qed.

(** X23: the name computed for a run is made of lower-case letters, digits
    and underscores only, whatever the keywords are. *)
Theorem analyze_keywords_for_name_chars (keywords_list : list string)
    (max_words : nat) :
  all_chars name_char (analyze_keywords_for_name keywords_list max_words) = true.
Proof. apply analyze_name_chars. Qed.

Lemma name_not_absolute (name rest : string) :
  all_chars name_char name = true ->
  String.prefix "/" (name ++ "_" ++ rest) = false.
Proof.
  destruct name as [|c name]; [done|]. rewrite append_cons.
  intros [Hc _]%andb_true_iff.
  destruct c as [[] [] [] [] [] [] [] []];
    first [reflexivity | vm_compute in Hc; discriminate].
Qed.

(** X24: a harvest started without a name writes to a file directly inside
    the output folder, named after the keywords and the timestamp: the
    computed name never turns the path into an absolute one. *)
Theorem unnamed_output_in_folder (fs : gmap string (list csv_item))
    (lines : list string) (timestamp : string) (p : plan) :
  scrape_videos true (fun ks => analyze_keywords_for_name ks 3) fs (Some lines)
    None timestamp = Some p ->
  output_file p
  = VIDEOS_OUTPUT_FOLDER ++ "/"
    ++ analyze_keywords_for_name (load_keywords lines) 3
    ++ "_" ++ timestamp ++ ".csv".
Proof.
  unfold scrape_videos. simpl.
  set (name := analyze_keywords_for_name (load_keywords lines) 3).
  assert (Hpath : output_path name timestamp
                  = VIDEOS_OUTPUT_FOLDER ++ "/" ++ name ++ "_" ++ timestamp ++ ".csv").
  { unfold output_path, path_join.
    by rewrite name_not_absolute by apply analyze_name_chars. }
  destruct (fs !! output_path name timestamp); intros [= <-]; exact Hpath.
Qed.

End run_name.

Lemma unnamed_output_in_folder_witness :
  exists p,
    scrape_videos true (fun ks => analyze_keywords_for_name ks 3) ∅
      (Some ["cat video"; "cat food"]) None "20240101_120000" = Some p
    /\ output_file p = "Videos/cat_video_food_20240101_120000.csv".
Proof.
  destruct (scrape_videos true (fun ks => analyze_keywords_for_name ks 3) ∅
              (Some ["cat video"; "cat food"]) None "20240101_120000")
    as [p|] eqn:E; [|vm_compute in E; discriminate].
  exists p. split; [reflexivity|].
  rewrite (unnamed_output_in_folder _ _ _ _ E). vm_compute. reflexivity.
Defined.
